(** * Reciprocal Rank Fusion and the [search_docs] tool

    A shallow embedding of
    - [rrfFusion] (skills/pgvector-semantic-search/SKILL.md, the TypeScript
      snippet "Client-side RRF fusion") together with the weighted variant of
      its two loops ("Weighting Keyword vs Semantic"),
    - [rrf_fusion], the Python snippet next to it, and
    - the [fn] handler of [searchDocsFactory] (src/apis/searchDocs.ts).

    JavaScript values are modelled as follows.
    - [number]: the arithmetic of the fusion is written once, over the
      interface [Number]; it is instantiated with the exact rationals [Q]
      (the reading under which the documentation states its scores, 1/61,
      1/62 + 1/61, ...) and with the primitive binary64 floats, which are the
      numbers a JavaScript engine computes with.  Indices, ids and the
      [limit] are integers.  A row has no rank field: its rank is its
      position in the list, counted from 1.
    - [Map]: an insertion-ordered association list with unique keys.
    - [Array]: [list]; [forEach], [sort] and [slice] follow ECMAScript.
    - [string]: row contents are [string]; the query of [search_docs] is a
      sequence of UTF-16 code units, which is what [trim] inspects. *)

From Stdlib Require Import List ZArith NArith QArith Lqa Lia Bool Ascii String Floats.
From Stdlib Require Import Permutation Sorted.
Import ListNotations.

Set Implicit Arguments.

(** ** Numbers *)

(** The operations the fusion applies to numbers. *)
Class Number (num : Type) := {
  zero : num;
  one : num;
  add : num -> num -> num;
  sub : num -> num -> num;
  div : num -> num -> num;
  ofIndex : nat -> num;          (* an array index or a rank as a number *)
  positive : num -> bool;        (* [x > 0]; false for NaN *)
  is_zero : num -> bool          (* [x == 0] *)
}.

(** Exact rational arithmetic: the numbers the program would compute if
    nothing rounded.  A division by zero gives 0 here, where binary64 gives
    an infinity or NaN, so statements over [Q] that depend on a divisor
    assume it is not zero. *)
#[export] Instance Q_number : Number Q := {|
  zero := 0%Q;
  one := 1%Q;
  add := Qplus;
  sub := Qminus;
  div := Qdiv;
  ofIndex := fun i => inject_Z (Z.of_nat i);
  positive := fun x => match (0 ?= x)%Q with Lt => true | _ => false end;
  is_zero := fun x => Qeq_bool x 0
|}.

(** IEEE 754 binary64 arithmetic. *)
#[export] Instance binary64_number : Number float := {|
  zero := 0%float;
  one := 1%float;
  add := PrimFloat.add;
  sub := PrimFloat.sub;
  div := PrimFloat.div;
  ofIndex := fun i => PrimFloat.of_uint63 (Uint63.of_Z (Z.of_nat i));
  positive := fun x => PrimFloat.ltb 0%float x;
  is_zero := fun x => PrimFloat.eqb x 0%float
|}.

(** ** Rows and results

    [type Row = { id: number; content: string }] and
    [type Result = Row & { score: number }]. *)

Record Row : Type := { id : Z; content : string }.

Record Result (num : Type) : Type := { row_of :> Row; score : num }.

Arguments score {num} _.
Arguments row_of {num} _.

(** ** [Map]: insertion-ordered, unique keys *)

Definition Map (V : Type) : Type := list (Z * V).

Fixpoint map_get {V} (m : Map V) (key : Z) : option V :=
  match m with
  | [] => None
  | (k', v) :: m' => if Z.eqb k' key then Some v else map_get m' key
  end.

(** [m.set(key, v)]: an existing key keeps its position and takes the new
    value; a new key is appended. *)
Fixpoint map_set {V} (m : Map V) (key : Z) (v : V) : Map V :=
  match m with
  | [] => [(key, v)]
  | (k', v') :: m' =>
      if Z.eqb k' key then (k', v) :: m' else (k', v') :: map_set m' key v
  end.

Definition entries {V} (m : Map V) : list (Z * V) := m.

Definition keys {V} (m : Map V) : list Z := map fst m.

(** [x ?? d] *)
Definition nullish {V} (x : option V) (d : V) : V :=
  match x with Some v => v | None => d end.

(** ** [Array] methods *)

(** [l.forEach((x, i) => ...)] with the callback's effect on the captured
    variables made explicit as a state; [forEach_from] carries the index. *)
Fixpoint forEach_from {A St} (f : St -> A -> nat -> St) (l : list A) (i : nat) (st : St) : St :=
  match l with
  | [] => st
  | x :: l' => forEach_from f l' (S i) (f st x i)
  end.

Definition forEach {A St} (f : St -> A -> nat -> St) (l : list A) (st : St) : St :=
  forEach_from f l 0 st.

(** [l.sort(cmp)]: ECMAScript's sort is stable, and [cmp a b > 0] is what puts
    [a] after [b].  With a comparator that is a consistent ordering every
    stable sort returns the same array; insertion sort is the one used here. *)
Section Sort.
Context {num : Type} `{Number num} {A : Type}.
Variable cmp : A -> A -> num.

Fixpoint sort_insert (x : A) (l : list A) : list A :=
  match l with
  | [] => [x]
  | y :: l' => if positive (cmp x y) then y :: sort_insert x l' else x :: l
  end.

Fixpoint sort (l : list A) : list A :=
  match l with
  | [] => []
  | x :: l' => sort_insert x (sort l')
  end.
End Sort.

(** [l.slice(start, end)] for integer arguments: a negative index counts from
    the end of the array, and both are clamped to [0 .. length]. *)
Definition relative_index (len i : Z) : Z :=
  if (i <? 0)%Z then Z.max (len + i) 0 else Z.min i len.

Definition slice {A} (start end_ : Z) (l : list A) : list A :=
  let len := Z.of_nat (List.length l) in
  let from := relative_index len start in
  let to := relative_index len end_ in
  firstn (Z.to_nat (to - from)) (skipn (Z.to_nat from) l).

(** ** [rrfFusion] *)

Section Fusion.
Context {num : Type} `{Number num}.

(** The two maps the loops write to. *)
Record Maps : Type := { scores : Map num; contentMap : Map string }.

(** The body of both loops,
    [scores.set(row.id, (scores.get(row.id) ?? 0) + weight / (k + i + 1));
     contentMap.set(row.id, row.content);]
    where [weight] is the literal [1] in [rrfFusion] and [keywordWeight] or
    [semanticWeight] in the weighted loops. *)
Definition accumulate (weight k : num) (st : Maps) (row : Row) (i : nat) : Maps :=
  {| scores :=
       map_set (scores st) (id row)
         (add (nullish (map_get (scores st) (id row)) zero)
              (div weight (add (add k (ofIndex i)) one)));
     contentMap := map_set (contentMap st) (id row) (content row) |}.

Definition empty_maps : Maps := {| scores := []; contentMap := [] |}.

(** The state after both loops. *)
Definition fused_maps (keywordResults semanticResults : list Row)
    (k keywordWeight semanticWeight : num) : Maps :=
  forEach (accumulate semanticWeight k) semanticResults
    (forEach (accumulate keywordWeight k) keywordResults empty_maps).

(** [(a, b) => b[1] - a[1]] *)
Definition by_score_desc (a b : Z * num) : num := sub (snd b) (snd a).

(** [([id, score]) => ({ id, content: contentMap.get(id)!, score })]; the
    [!] is erased by the compiler, and [contentMap_defined] below shows that
    the lookup never misses. *)
Definition to_result (contentMap : Map string) (e : Z * num) : Result num :=
  {| row_of := {| id := fst e; content := nullish (map_get contentMap (fst e)) EmptyString |};
     score := snd e |}.

(** The [return] expression, over the state the loops leave. *)
Definition ranked_results (st : Maps) (limit : Z) : list (Result num) :=
  map (to_result (contentMap st))
      (slice 0 limit (sort by_score_desc (entries (scores st)))).

(** [rrfFusion] with the loops of "Weighting Keyword vs Semantic", which put
    [keywordWeight] and [semanticWeight] in place of the numerator [1]; that
    snippet shows the [scores.set] lines only, the rest is [rrfFusion]'s. *)
Definition rrfFusionWeighted (keywordResults semanticResults : list Row)
    (k keywordWeight semanticWeight : num) (limit : Z) : list (Result num) :=
  ranked_results
    (fused_maps keywordResults semanticResults k keywordWeight semanticWeight) limit.

(** [function rrfFusion(keywordResults, semanticResults, k = 60, limit = 10)] *)
Definition rrfFusion (keywordResults semanticResults : list Row)
    (k : num) (limit : Z) : list (Result num) :=
  ranked_results
    (forEach (accumulate one k) semanticResults
       (forEach (accumulate one k) keywordResults empty_maps))
    limit.

(** The fused score of an id: its entry in [scores] after both loops. *)
Definition fused_score (keywordResults semanticResults : list Row)
    (k keywordWeight semanticWeight : num) (i : Z) : option num :=
  map_get (scores (fused_maps keywordResults semanticResults k keywordWeight semanticWeight)) i.
End Fusion.

Arguments Maps : clear implicits.

(** How a call ends: with a value, or with a thrown error. *)
Inductive exn : Type :=
| Error (message : string)     (* JavaScript's [new Error(message)] *)
| ZeroDivisionError.           (* Python's, raised by [/] on a zero divisor *)

Inductive completion (A : Type) : Type :=
| Normal (value : A)
| Throw (e : exn).

Arguments Normal {A} _.
Arguments Throw {A} _.

(** A call of the fusion: its body has no [throw], and neither [Map.get],
    [Map.set], [forEach], [sort], [slice] nor the arithmetic on numbers
    throws. *)
Definition rrfFusionWeighted_call {num} `{Number num}
    (keywordResults semanticResults : list Row)
    (k keywordWeight semanticWeight : num) (limit : Z) : completion (list (Result num)) :=
  Normal (rrfFusionWeighted keywordResults semanticResults k keywordWeight semanticWeight limit).

(** ** [rrf_fusion], the Python snippet

    [dict] keeps insertion order as [Map] does; [enumerate(rows, start=1)]
    hands out the ranks 1, 2, ...; [/] raises [ZeroDivisionError] on a zero
    divisor; [sorted(scores, key=scores.get, reverse=True)] is stable, ties
    keeping their original order, and the comparison of two keys is written
    here as the sign of their difference; [[:limit]] is [slice(0, limit)]. *)

Section PyFusion.
Context {num : Type} `{Number num}.

(** [scores[row['id']] = scores.get(row['id'], 0) + weight / (k + rank)
     content_map[row['id']] = row['content']] *)
Definition py_accumulate (weight k : num) (st : Maps num) (row : Row) (rank : nat)
    : completion (Maps num) :=
  let divisor := add k (ofIndex rank) in
  if is_zero divisor then Throw ZeroDivisionError
  else Normal
    {| scores :=
         map_set (scores st) (id row)
           (add (nullish (map_get (scores st) (id row)) zero) (div weight divisor));
       contentMap := map_set (contentMap st) (id row) (content row) |}.

(** [for rank, row in enumerate(rows, start=rank): ...] *)
Fixpoint py_for (body : Maps num -> Row -> nat -> completion (Maps num))
    (rows : list Row) (rank : nat) (st : Maps num) : completion (Maps num) :=
  match rows with
  | [] => Normal st
  | r :: rows' =>
      match body st r rank with
      | Normal st' => py_for body rows' (S rank) st'
      | Throw e => Throw e
      end
  end.

(** [def rrf_fusion(keyword_results, semantic_results, k=60, limit=10)] *)
Definition rrf_fusion (keyword_results semantic_results : list Row)
    (k : num) (limit : Z) : completion (list (Result num)) :=
  match py_for (py_accumulate one k) keyword_results 1 empty_maps with
  | Throw e => Throw e
  | Normal st1 =>
      match py_for (py_accumulate one k) semantic_results 1 st1 with
      | Throw e => Throw e
      | Normal st2 =>
          let key i := nullish (map_get (scores st2) i) zero in
          let sorted_ids :=
            slice 0 limit (sort (fun a b => sub (key b) (key a)) (keys (scores st2))) in
          Normal (map (fun i =>
                         {| row_of := {| id := i;
                                         content := nullish (map_get (contentMap st2) i)
                                                      EmptyString |};
                            score := key i |})
                      sorted_ids)
      end
  end.
End PyFusion.

Definition ids (rows : list Row) : list Z := map id rows.

Definition row (i : Z) (c : string) : Row := {| id := i; content := c |}.

(** ** The [search_docs] tool *)

(** A JavaScript string is a sequence of UTF-16 code units. *)
Definition code_unit : Type := N.
Definition jsstring : Type := list code_unit.

Definition of_ascii (s : string) : jsstring :=
  map (fun c => N_of_ascii c) (list_ascii_of_string s).

(** ECMAScript's [WhiteSpace] and [LineTerminator] code points, the ones
    [String.prototype.trim] strips: TAB, VT, FF, SP, NBSP, ZWNBSP, the other
    space separators (category Zs), and LF, CR, LS, PS. *)
Definition is_white_space (c : code_unit) : bool :=
  ((c =? 0x9) || (c =? 0xB) || (c =? 0xC) || (c =? 0x20) || (c =? 0xA0)
   || (c =? 0xFEFF) || (c =? 0x1680) || ((0x2000 <=? c) && (c <=? 0x200A))
   || (c =? 0x202F) || (c =? 0x205F) || (c =? 0x3000)
   || (c =? 0xA) || (c =? 0xD) || (c =? 0x2028) || (c =? 0x2029))%N.

Fixpoint trimStart (s : jsstring) : jsstring :=
  match s with
  | [] => []
  | c :: s' => if is_white_space c then trimStart s' else s
  end.

Definition trimEnd (s : jsstring) : jsstring := rev (trimStart (rev s)).

Definition trim (s : jsstring) : jsstring := trimEnd (trimStart s).

(** [!s] on a string: true exactly for the empty string. *)
Definition falsy (s : jsstring) : bool :=
  match s with [] => true | _ :: _ => false end.

(** A query that is empty or made of white space only. *)
Definition blank (s : jsstring) : bool := forallb is_white_space s.

Inductive source_t : Type := tiger | postgres.
Inductive search_type_t : Type := semantic | keyword.

(** [const pg_versions = ['14', '15', '16', '17', '18'] as const] *)
Inductive pg_version : Type := v14 | v15 | v16 | v17 | v18.
Definition pg_versions : list pg_version := [v14; v15; v16; v17; v18].

(** [pg_versions.at(-1)] *)
Definition latest_pg_version : pg_version := last pg_versions v14.

(** [const versions = [...pg_versions, 'latest'] as const] *)
Inductive version_t : Type := pg (v : pg_version) | latest.

(** The input the schema admits; [limit] is [z.coerce.number().int()]. *)
Record Input : Type := {
  source : source_t;
  search_type : search_type_t;
  query : jsstring;
  version : version_t;
  limit : Z
}.

Definition embedding : Type := list float.

(** A row of [result.rows]: [id], [content], [metadata] and the [distance]
    (semantic) or [score] (keyword) column. *)
Record DocRow : Type := {
  doc_id : Z;
  doc_content : string;
  metadata : string;
  relevance : float
}.

Record Output : Type := { results : list DocRow }.

(** The four SQL texts of [fn], by search type and table. *)
Inductive statement : Type :=
| semantic_timescale_chunks
| semantic_postgres_chunks
| keyword_timescale_chunks
| keyword_postgres_chunks.

(** The values bound to [$1], [$2], [$3]. *)
Inductive param : Type :=
| PJson (e : embedding)        (* [JSON.stringify(embedding)] *)
| PText (q : jsstring)
| PVersion (v : pg_version)
| PLimit (n : Z).

(** An [async] body as a tree: it returns, throws, or awaits an external
    call and continues with what the call resolves to.  A call that rejects
    ends the run there, since [fn] has no [try]. *)
Inductive io (R : Type) : Type :=
| Return (r : R)
| Raise (e : exn)
| Embed (value : jsstring) (k : embedding -> io R)
| PgQuery (schema : string) (sql : statement) (params : list param)
          (k : list DocRow -> io R).

Arguments Return {R} _.
Arguments Raise {R} _.
Arguments Embed {R} _ _.
Arguments PgQuery {R} _ _ _ _.

(** [fn] of [searchDocsFactory({ pgPool, schema })].  The final [else]
    branches ("Unsupported source", "Unsupported search_type") are the ones
    the enumerations exclude. *)
Definition fn (schema : string) (input : Input) : io Output :=
  let passedLimit := limit input in
  let passedVersion := version input in
  let limit := if (passedLimit >? 0)%Z then passedLimit else 10%Z in
  if falsy (trim (query input)) then
    Raise (Error "Query must be a non-empty string.")
  else
    let version :=
      match passedVersion with latest => latest_pg_version | pg v => v end in
    match search_type input with
    | semantic =>
        Embed (query input) (fun embedding =>
          match source input with
          | tiger =>
              PgQuery schema semantic_timescale_chunks
                [PJson embedding; PLimit limit]
                (fun rows => Return {| results := rows |})
          | postgres =>
              PgQuery schema semantic_postgres_chunks
                [PJson embedding; PVersion version; PLimit limit]
                (fun rows => Return {| results := rows |})
          end)
    | keyword =>
        match source input with
        | tiger =>
            PgQuery schema keyword_timescale_chunks
              [PText (query input); PLimit limit]
              (fun rows => Return {| results := rows |})
        | postgres =>
            PgQuery schema keyword_postgres_chunks
              [PText (query input); PVersion version; PLimit limit]
              (fun rows => Return {| results := rows |})
        end
    end.

(** Running a body against an embedding model and a database whose calls
    resolve: the external calls it makes, in order, and how it ends.  Calls
    that may reject are run by [attempt] below. *)
Inductive call : Type :=
| CallEmbed (value : jsstring)
| CallQuery (schema : string) (sql : statement) (params : list param).

Record World : Type := {
  embed : jsstring -> embedding;
  pgPool_query : string -> statement -> list param -> list DocRow
}.

Fixpoint run {R} (w : World) (p : io R) : list call * completion R :=
  match p with
  | Return r => ([], Normal r)
  | Raise e => ([], Throw e)
  | Embed value k =>
      let (calls, c) := run w (k (embed w value)) in
      (CallEmbed value :: calls, c)
  | PgQuery schema sql params k =>
      let (calls, c) := run w (k (pgPool_query w schema sql params)) in
      (CallQuery schema sql params :: calls, c)
  end.

(** The row cap of a database call: the value bound to its last parameter,
    the one every statement uses as [LIMIT]. *)
Definition row_cap (c : call) : option Z :=
  match c with
  | CallEmbed _ => None
  | CallQuery _ _ params =>
      match last params (PLimit 0) with PLimit n => Some n | _ => None end
  end.

Definition is_query (c : call) : bool :=
  match c with CallQuery _ _ _ => true | CallEmbed _ => false end.

Definition with_limit (input : Input) (n : Z) : Input :=
  {| source := source input; search_type := search_type input;
     query := query input; version := version input; limit := n |}.

(** ** Notions the statements below use *)

(** The limit [fn] passes to the database: [passedLimit > 0 ? passedLimit : 10]. *)
Definition effective_limit (passedLimit : Z) : Z :=
  if (passedLimit >? 0)%Z then passedLimit else 10%Z.

(** Position of the first occurrence of [x], counted from 0; the length of
    the list when [x] does not occur. *)
Fixpoint index_of (x : Z) (l : list Z) : nat :=
  match l with
  | [] => 0
  | y :: l' => if Z.eqb y x then 0 else S (index_of x l')
  end.

(** Encounter order of the ids: the keyword list, then the semantic list. *)
Definition encounter (keywordResults semanticResults : list Row) : list Z :=
  ids keywordResults ++ ids semanticResults.

(** The last row carrying id [i], if any. *)
Definition last_row (i : Z) (rows : list Row) : option Row :=
  find (fun r => Z.eqb (id r) i) (rev rows).

Definition mem (x : Z) (l : list Z) : bool := existsb (Z.eqb x) l.

(** The tie-break as the specification words it: [a] goes before [b] when
    both are in the semantic list and [a] has the smaller rank there; when
    only one of them is in the semantic list, that one goes first; and by
    encounter order otherwise. *)
Definition spec_tie_before (keywordResults semanticResults : list Row) (a b : Z) : bool :=
  let sem := ids semanticResults in
  match mem a sem, mem b sem with
  | true, true => (index_of a sem <? index_of b sem)%nat
  | true, false => true
  | false, true => false
  | false, false =>
      (index_of a (encounter keywordResults semanticResults)
       <? index_of b (encounter keywordResults semanticResults))%nat
  end.

(** A ranked list on its own: row [i] (counted from 0) with the score the
    loop gives it on an empty map, [0 + weight / (k + i + 1)]. *)
Fixpoint rank_from {num} `{Number num} (weight k : num) (rows : list Row) (i : nat)
    : list (Result num) :=
  match rows with
  | [] => []
  | r :: rows' =>
      {| row_of := {| id := id r; content := content r |};
         score := add zero (div weight (add (add k (ofIndex i)) one)) |}
      :: rank_from weight k rows' (S i)
  end.

(** Equality of optional scores up to equality of rationals. *)
Definition Qeq_opt (x y : option Q) : Prop :=
  match x, y with
  | Some a, Some b => a == b
  | None, None => True
  | _, _ => False
  end.

Definition Qle_opt (x y : option Q) : Prop :=
  match x, y with
  | Some a, Some b => a <= b
  | _, _ => False
  end.

(** The keys of a map after [set] calls for the keys [xs], in order: a key
    that is new goes to the end. *)
Fixpoint append_new (l xs : list Z) : list Z :=
  match xs with
  | [] => l
  | x :: xs' => append_new (if mem x l then l else l ++ [x]) xs'
  end.

(** What the rows carrying id [x] add to its score in one loop, the first
    row having index [i]. *)
Fixpoint rank_sum (weight k : Q) (x : Z) (rows : list Row) (i : nat) : Q :=
  match rows with
  | [] => 0
  | r :: rows' =>
      (if Z.eqb (id r) x then weight / (k + inject_Z (Z.of_nat i) + 1) else 0)
      + rank_sum weight k x rows' (S i)
  end.

(** [a] occurs at an earlier position of [l] than [b]. *)
Definition Before {A} (l : list A) (a b : A) : Prop :=
  exists l1 l2 l3, l = l1 ++ a :: l2 ++ b :: l3.

(** The number of distinct ids of the two lists. *)
Definition distinct_ids (keywordResults semanticResults : list Row) : nat :=
  List.length (nodup Z.eq_dec (encounter keywordResults semanticResults)).

(** The fused score in closed form: the sum of what the two lists contribute,
    for an id that occurs in one of them. *)
Definition rrf_score (keywordResults semanticResults : list Row)
    (k keywordWeight semanticWeight : Q) (x : Z) : option Q :=
  if mem x (ids keywordResults) || mem x (ids semanticResults)
  then Some (rank_sum keywordWeight k x keywordResults 0
             + rank_sum semanticWeight k x semanticResults 0)
  else None.

(** The entries one loop writes to an empty [scores] map for rows with
    pairwise distinct ids, the first row having index [i]. *)
Fixpoint score_entries {num} `{Number num} (weight k : num) (rows : list Row) (i : nat)
    : list (Z * num) :=
  match rows with
  | [] => []
  | r :: rows' =>
      (id r, add zero (div weight (add (add k (ofIndex i)) one)))
      :: score_entries weight k rows' (S i)
  end.

(** Descending order of score, on the entries of [scores]. *)
Definition score_desc (a b : Z * Q) : Prop := snd b <= snd a.

(** Whether [k + rank] is zero for one of the ranks [1 .. n], the ranks
    [enumerate(rows, start=1)] hands to a list of [n] rows. *)
Definition zero_divisor_from (k : Q) (start n : nat) : bool :=
  existsb (fun rank => is_zero (add k (ofIndex rank))) (seq start n).

Definition zero_divisor (k : Q) (rows : list Row) : bool :=
  zero_divisor_from k 1 (List.length rows).

(** More notions for [search_docs]. *)
Definition with_version (input : Input) (v : version_t) : Input :=
  {| source := source input; search_type := search_type input;
     query := query input; version := v; limit := limit input |}.

Definition is_embed (c : call) : bool :=
  match c with CallEmbed _ => true | CallQuery _ _ _ => false end.

(** The version [fn] binds for the [postgres] source. *)
Definition resolved_version (v : version_t) : pg_version :=
  match v with latest => v18 | pg v' => v' end.

(** The statement [fn] picks for a search type and a source. *)
Definition statement_for (t : search_type_t) (s : source_t) : statement :=
  match t, s with
  | semantic, tiger => semantic_timescale_chunks
  | semantic, postgres => semantic_postgres_chunks
  | keyword, tiger => keyword_timescale_chunks
  | keyword, postgres => keyword_postgres_chunks
  end.

(** ** Reranking, the callers of the fusion

    The snippets of "Reranking with ML Models" fuse up to 100 candidates with
    [k = 60] and hand their contents to a reranker, which is an external
    service: a cross-encoder's [predict] in Python, [cohere.rerank] in
    TypeScript. *)

Section Rerank.
Context {num : Type} `{Number num}.

(** [candidates = rrf_fusion(keyword_results, semantic_results, limit=100)
     pairs = [(query_text, doc['content']) for doc in candidates]
     scores = reranker.predict(pairs)
     reranked = sorted(zip(candidates, scores), key=lambda x: x[1],
                       reverse=True)[:10]] *)
Definition py_rerank (predict : list (string * string) -> list num)
    (query_text : string) (keyword_results semantic_results : list Row)
    : completion (list (Result num * num)) :=
  match rrf_fusion keyword_results semantic_results (ofIndex 60) 100 with
  | Throw e => Throw e
  | Normal candidates =>
      let pairs := map (fun doc : Result num => (query_text, content doc)) candidates in
      let scores := predict pairs in
      Normal (slice 0 10
                (sort (fun a b : Result num * num => sub (snd b) (snd a))
                      (combine candidates scores)))
  end.

(** An entry of [reranked.results]; only its [index] is read. *)
Record RerankHit : Type := { index : Z; relevanceScore : num }.

(** [l[i]] for an integer [i]: [undefined] outside [0 .. length - 1]. *)
Definition Array_get {A} (l : list A) (i : Z) : option A :=
  if (i <? 0)%Z then None else nth_error l (Z.to_nat i).

(** [const candidates = rrfFusion(keywordResults, semanticResults, 60, 100);
     const reranked = await cohere.rerank({ model: 'rerank-v3.5',
       query: queryText, documents: candidates.map(c => c.content), topN: 10 });
     const results = reranked.results.map(r => candidates[r.index]);] *)
Definition ts_rerank (cohere_rerank : string -> list string -> Z -> list RerankHit)
    (queryText : string) (keywordResults semanticResults : list Row)
    : list (option (Result num)) :=
  let candidates := rrfFusion keywordResults semanticResults (ofIndex 60) 100 in
  let reranked :=
    cohere_rerank queryText (map (fun c : Result num => content c) candidates) 10%Z in
  map (fun r => Array_get candidates (index r)) reranked.
End Rerank.

Arguments RerankHit : clear implicits.

(** ** The migration that adds the BM25 indexes

    [up] and [down] of the migration "Add pg_textsearch + BM25 indexes on docs
    content": each opens a client, awaits its calls one after the other inside
    [try], and awaits [client.end()] in [finally]. *)

(** [const schema = process.env.DB_SCHEMA || 'docs']: an unset and an empty
    variable both give ['docs']. *)
Definition env_schema (DB_SCHEMA : option string) : string :=
  match DB_SCHEMA with
  | None => "docs"
  | Some EmptyString => "docs"
  | Some s => s
  end.

(** The statements of the migration, with the schema interpolated. *)
Inductive migration_sql : Type :=
| create_extension (name : string)
    (* [CREATE EXTENSION IF NOT EXISTS name] *)
| create_bm25_index (index_name schema table : string)
    (* [CREATE INDEX CONCURRENTLY IF NOT EXISTS index_name ON schema.table
        USING bm25(content) WITH (text_config='english')] *)
| drop_index (schema index_name : string).
    (* [DROP INDEX CONCURRENTLY IF EXISTS schema.index_name] *)

Inductive client_call : Type :=
| client_connect
| client_query (sql : migration_sql)
| client_end.

(** Which awaited calls reject, and with what. *)
Definition Failures : Type := client_call -> option exn.

(** A sequence of awaited calls: the calls made, and the error of the first
    one that rejects, after which none is made. *)
Fixpoint await_all (fails : Failures) (calls : list client_call)
    : list client_call * option exn :=
  match calls with
  | [] => ([], None)
  | c :: rest =>
      match fails c with
      | Some e => ([c], Some e)
      | None => let (made, thrown) := await_all fails rest in (c :: made, thrown)
      end
  end.

(** [try { body } finally { await finalizer }]: the finalizer is awaited
    whether or not the body threw; its own error, if any, is the one thrown,
    otherwise the body's. *)
Definition try_finally (fails : Failures) (body : list client_call)
    (finalizer : client_call) : list client_call * completion unit :=
  let (made, thrown) := await_all fails body in
  (made ++ [finalizer],
   match fails finalizer with
   | Some e => Throw e
   | None => match thrown with Some e => Throw e | None => Normal tt end
   end).

Definition up_body (schema : string) : list client_call :=
  [ client_connect;
    client_query (create_extension "pg_textsearch");
    client_query (create_bm25_index "timescale_chunks_content_idx" schema "timescale_chunks");
    client_query (create_bm25_index "postgres_chunks_content_idx" schema "postgres_chunks") ].

(** [export async function up()] *)
Definition up (schema : string) (fails : Failures) : list client_call * completion unit :=
  try_finally fails (up_body schema) client_end.

Definition down_body (schema : string) : list client_call :=
  [ client_connect;
    client_query (drop_index schema "timescale_chunks_content_idx");
    client_query (drop_index schema "postgres_chunks_content_idx") ].

(** [export async function down()] *)
Definition down (schema : string) (fails : Failures) : list client_call * completion unit :=
  try_finally fails (down_body schema) client_end.

(** The indexes a sequence of calls creates and drops, as (schema, name). *)
Definition created_index (c : client_call) : option (string * string) :=
  match c with
  | client_query (create_bm25_index i s _) => Some (s, i)
  | _ => None
  end.

Definition dropped_index (c : client_call) : option (string * string) :=
  match c with
  | client_query (drop_index s i) => Some (s, i)
  | _ => None
  end.

Fixpoint filter_map {A B} (f : A -> option B) (l : list A) : list B :=
  match l with
  | [] => []
  | x :: l' => match f x with Some y => y :: filter_map f l' | None => filter_map f l' end
  end.

(** The table a keyword statement of [fn] reads and the index it names in
    [to_bm25query($1, 'schema.index')]; the semantic statements name none. *)
Definition bm25_index_of (sql : statement) : option (string * string) :=
  match sql with
  | keyword_timescale_chunks =>
      Some ("timescale_chunks"%string, "timescale_chunks_content_idx"%string)
  | keyword_postgres_chunks =>
      Some ("postgres_chunks"%string, "postgres_chunks_content_idx"%string)
  | _ => None
  end.

(** The entries of [scores] after both loops have run over one and the same
    list of rows with pairwise distinct ids. *)
Fixpoint both_entries {num} `{Number num} (wk ws k : num) (rows : list Row) (i : nat)
    : list (Z * num) :=
  match rows with
  | [] => []
  | r :: rows' =>
      (id r, add (add zero (div wk (add (add k (ofIndex i)) one)))
                 (div ws (add (add k (ofIndex i)) one)))
      :: both_entries wk ws k rows' (S i)
  end.

(** The score the loops build for id [x]: starting from [acc], each row of
    [rows] that carries [x] adds [weight / (k + i + 1)], in the order of the
    rows, the first row having index [i]. *)
Fixpoint accumulated {num} `{Number num} (weight k : num) (x : Z) (rows : list Row)
    (i : nat) (acc : num) : num :=
  match rows with
  | [] => acc
  | r :: rows' =>
      accumulated weight k x rows' (S i)
        (if Z.eqb (id r) x
         then add acc (div weight (add (add k (ofIndex i)) one))
         else acc)
  end.

(** The two snippets compute the divisor of the row at index [i] as
    [k + (i + 1)] (Python, the rank) and as [k + i + 1] (TypeScript).
    [divisors_agree k n]: for the first [n] rows the two are the same number,
    and it is not zero. *)
Definition divisors_agree {num} `{Number num} (k : num) (n : nat) : Prop :=
  forall i, (i < n)%nat ->
    is_zero (add k (ofIndex (S i))) = false
    /\ add k (ofIndex (S i)) = add (add k (ofIndex i)) one.

(** Running a body against services that may reject: an awaited call that
    rejects ends the run with its error, since [fn] has no [try]. *)
Record Services : Type := {
  embed_service : jsstring -> completion embedding;
  query_service : string -> statement -> list param -> completion (list DocRow)
}.

Fixpoint attempt {R} (s : Services) (p : io R) : list call * completion R :=
  match p with
  | Return r => ([], Normal r)
  | Raise e => ([], Throw e)
  | Embed value k =>
      match embed_service s value with
      | Normal e => let (calls, c) := attempt s (k e) in (CallEmbed value :: calls, c)
      | Throw err => ([CallEmbed value], Throw err)
      end
  | PgQuery schema sql params k =>
      match query_service s schema sql params with
      | Normal rows =>
          let (calls, c) := attempt s (k rows) in
          (CallQuery schema sql params :: calls, c)
      | Throw err => ([CallQuery schema sql params], Throw err)
      end
  end.

(** Services that never reject. *)
Definition resolving (w : World) : Services :=
  {| embed_service := fun value => Normal (embed w value);
     query_service := fun schema sql params => Normal (pgPool_query w schema sql params) |}.

(** * Properties *)

(** ** Maps *)

Section MapFacts.
Context {V : Type}.
Implicit Types (m : Map V) (key : Z) (v : V).

Lemma map_get_set_same m key v : map_get (map_set m key v) key = Some v.
Proof.
  induction m as [|[k' v'] m IH]; simpl.
  - now rewrite Z.eqb_refl.
  - destruct (Z.eqb k' key) eqn:E; simpl; rewrite E; auto.
Qed.

Lemma map_get_set_other m key key' v :
  key <> key' -> map_get (map_set m key v) key' = map_get m key'.
Proof.
  intros Hne. induction m as [|[k' v'] m IH]; simpl.
  - destruct (Z.eqb key key') eqn:E; auto. apply Z.eqb_eq in E. contradiction.
  - destruct (Z.eqb k' key) eqn:E; simpl.
    + apply Z.eqb_eq in E. subst k'.
      destruct (Z.eqb key key') eqn:E'; auto.
      apply Z.eqb_eq in E'. contradiction.
    + now rewrite IH.
Qed.

Lemma mem_In x l : mem x l = true <-> In x l.
Proof.
  unfold mem. rewrite existsb_exists. split.
  - intros (y & Hy & E). apply Z.eqb_eq in E. now subst.
  - intros Hx. exists x. split; auto. apply Z.eqb_refl.
Qed.

Lemma mem_not_In x l : mem x l = false <-> ~ In x l.
Proof.
  rewrite <- mem_In. destruct (mem x l); split; congruence.
Qed.

Lemma map_get_None m key : map_get m key = None <-> ~ In key (keys m).
Proof.
  induction m as [|[k' v'] m IH]; simpl.
  - tauto.
  - destruct (Z.eqb k' key) eqn:E.
    + apply Z.eqb_eq in E. split; [discriminate | tauto].
    + apply Z.eqb_neq in E. rewrite IH. tauto.
Qed.

Lemma In_map_get m key v : NoDup (keys m) -> In (key, v) m -> map_get m key = Some v.
Proof.
  induction m as [|[k' v'] m IH]; simpl; [tauto|].
  intros Hnd [E|Hin].
  - inversion E; subst. now rewrite Z.eqb_refl.
  - inversion Hnd as [|? ? Hni Hnd']; subst.
    destruct (Z.eqb k' key) eqn:E.
    + apply Z.eqb_eq in E. subst. exfalso. apply Hni.
      change key with (fst (key, v)). now apply in_map.
    + auto.
Qed.

Lemma keys_map_set m key v :
  keys (map_set m key v) = if mem key (keys m) then keys m else keys m ++ [key].
Proof.
  induction m as [|[k' v'] m IH]; simpl; auto.
  rewrite (Z.eqb_sym key k').
  destruct (Z.eqb k' key) eqn:E; simpl; auto.
  rewrite IH. unfold mem. now destruct (existsb (Z.eqb key) (keys m)).
Qed.
End MapFacts.

(** ** Keys written by a loop *)

Lemma append_new_In l xs x : In x (append_new l xs) <-> In x l \/ In x xs.
Proof.
  revert l. induction xs as [|y xs IH]; intros l; simpl.
  - tauto.
  - rewrite IH. destruct (mem y l) eqn:E.
    + apply mem_In in E. split; [tauto|]. intros [H|[H|H]]; subst; auto.
    + rewrite in_app_iff. simpl. split; [tauto|]. intros [H|[H|H]]; subst; auto.
Qed.

Lemma append_new_NoDup l xs : NoDup l -> NoDup (append_new l xs).
Proof.
  revert l. induction xs as [|y xs IH]; intros l Hl; simpl; auto.
  apply IH. destruct (mem y l) eqn:E; auto.
  apply mem_not_In in E.
  apply NoDup_app; auto.
  - constructor; [tauto | constructor].
  - intros a Ha [<-|[]]. contradiction.
Qed.

Lemma append_new_app l xs ys :
  append_new l (xs ++ ys) = append_new (append_new l xs) ys.
Proof.
  revert l. induction xs as [|x xs IH]; intros l; simpl; auto.
Qed.

Section LoopFacts.
Context {num : Type} `{Number num}.
Implicit Types (st : Maps num) (rows : list Row) (weight k : num).

Lemma scores_keys_forEach weight k rows i st :
  keys (scores (forEach_from (accumulate weight k) rows i st))
  = append_new (keys (scores st)) (ids rows).
Proof.
  revert i st. induction rows as [|r rows IH]; intros i st; simpl; auto.
  rewrite IH. simpl. now rewrite keys_map_set.
Qed.

Lemma contentMap_keys_forEach weight k rows i st :
  keys (contentMap (forEach_from (accumulate weight k) rows i st))
  = append_new (keys (contentMap st)) (ids rows).
Proof.
  revert i st. induction rows as [|r rows IH]; intros i st; simpl; auto.
  rewrite IH. simpl. now rewrite keys_map_set.
Qed.

(** After the loops both maps have the same keys: the ids in encounter
    order, each once. *)
Lemma fused_scores_keys kw sem k wk ws :
  keys (scores (fused_maps kw sem k wk ws)) = append_new [] (encounter kw sem).
Proof.
  unfold fused_maps, forEach, encounter.
  now rewrite !scores_keys_forEach, append_new_app.
Qed.

Lemma fused_contentMap_keys kw sem k wk ws :
  keys (contentMap (fused_maps kw sem k wk ws)) = append_new [] (encounter kw sem).
Proof.
  unfold fused_maps, forEach, encounter.
  now rewrite !contentMap_keys_forEach, append_new_app.
Qed.

Lemma fused_scores_NoDup kw sem k wk ws :
  NoDup (keys (scores (fused_maps kw sem k wk ws))).
Proof. rewrite fused_scores_keys. apply append_new_NoDup. constructor. Qed.

(** [contentMap.get(id)!] is defined for every key of [scores]. *)
Lemma contentMap_defined kw sem k wk ws x :
  In x (keys (scores (fused_maps kw sem k wk ws))) ->
  exists c, map_get (contentMap (fused_maps kw sem k wk ws)) x = Some c.
Proof.
  rewrite fused_scores_keys, <- (fused_contentMap_keys kw sem k wk ws).
  intros Hin.
  destruct (map_get (contentMap (fused_maps kw sem k wk ws)) x) eqn:E; eauto.
  apply map_get_None in E. contradiction.
Qed.

(** ** The content a loop leaves: the last row written wins *)

Lemma find_app_last {A} (f : A -> bool) (l : list A) (x : A) :
  find f (l ++ [x])
  = match find f l with Some y => Some y | None => if f x then Some x else None end.
Proof.
  induction l as [|y l IH]; simpl; auto.
  destruct (f y); auto.
Qed.

Lemma last_row_cons x r rows :
  last_row x (r :: rows)
  = match last_row x rows with
    | Some r' => Some r'
    | None => if Z.eqb (id r) x then Some r else None
    end.
Proof. unfold last_row. cbn [rev]. now rewrite find_app_last. Qed.

Lemma last_row_app x rows1 rows2 :
  last_row x (rows1 ++ rows2)
  = match last_row x rows2 with
    | Some r => Some r
    | None => last_row x rows1
    end.
Proof.
  induction rows1 as [|r rows1 IH]; simpl.
  - destruct (last_row x rows2); auto.
  - rewrite !last_row_cons, IH. destruct (last_row x rows2); auto.
Qed.

Lemma last_row_None x rows : last_row x rows = None <-> ~ In x (ids rows).
Proof.
  induction rows as [|r rows IH]; simpl.
  - unfold last_row. simpl. tauto.
  - rewrite last_row_cons. destruct (last_row x rows) eqn:E.
    + split; [discriminate|]. intros Hn. exfalso.
      assert (Hx : ~ In x (ids rows)) by tauto. apply IH in Hx. discriminate.
    + destruct (Z.eqb (id r) x) eqn:E'.
      * apply Z.eqb_eq in E'. split; [discriminate | tauto].
      * apply Z.eqb_neq in E'. destruct IH as [IH1 _]. specialize (IH1 eq_refl). tauto.
Qed.

Lemma last_row_Some x rows r : last_row x rows = Some r -> In r rows /\ id r = x.
Proof.
  unfold last_row. intros Hf. apply find_some in Hf. destruct Hf as [Hin E].
  apply in_rev in Hin. apply Z.eqb_eq in E. auto.
Qed.

Lemma contentMap_forEach weight k rows i st x :
  map_get (contentMap (forEach_from (accumulate weight k) rows i st)) x
  = match last_row x rows with
    | Some r => Some (content r)
    | None => map_get (contentMap st) x
    end.
Proof.
  revert i st. induction rows as [|r rows IH]; intros i st; simpl; auto.
  rewrite IH, last_row_cons. destruct (last_row x rows); auto. simpl.
  destruct (Z.eqb (id r) x) eqn:E.
  - apply Z.eqb_eq in E. subst. apply map_get_set_same.
  - apply Z.eqb_neq in E. now apply map_get_set_other.
Qed.

Lemma fused_contentMap kw sem k wk ws x :
  map_get (contentMap (fused_maps kw sem k wk ws)) x
  = option_map content (last_row x (kw ++ sem)).
Proof.
  unfold fused_maps, forEach. rewrite !contentMap_forEach, last_row_app.
  destruct (last_row x sem); [reflexivity|]. destruct (last_row x kw); reflexivity.
Qed.
End LoopFacts.

(** ** Order of positions *)

Section BeforeFacts.
Context {A : Type}.
Implicit Types (l : list A) (a b : A).

Lemma Before_cons l y a b :
  Before (y :: l) a b <-> (a = y /\ In b l) \/ Before l a b.
Proof.
  split.
  - intros (l1 & l2 & l3 & E). destruct l1 as [|z l1]; simpl in E.
    + inversion E; subst. left. split; auto.
      apply in_or_app. right. now left.
    + inversion E; subst. right. now exists l1, l2, l3.
  - intros [[-> Hin]|(l1 & l2 & l3 & ->)].
    + apply in_split in Hin. destruct Hin as (l2 & l3 & ->).
      now exists [], l2, l3.
    + now exists (y :: l1), l2, l3.
Qed.

Lemma Before_nil a b : ~ Before (@nil A) a b.
Proof. intros (l1 & l2 & l3 & E). destruct l1; discriminate. Qed.

Lemma Before_app_l l l' a b : Before l a b -> Before (l ++ l') a b.
Proof.
  intros (l1 & l2 & l3 & ->). exists l1, l2, (l3 ++ l').
  now rewrite <- !app_assoc, <- !app_comm_cons, <- app_assoc.
Qed.

Lemma Before_firstn n l a b : Before (firstn n l) a b -> Before l a b.
Proof.
  intros Hb. rewrite <- (firstn_skipn n l). now apply Before_app_l.
Qed.

Lemma Before_nth_error l a b i j :
  nth_error l i = Some a -> nth_error l j = Some b -> (i < j)%nat -> Before l a b.
Proof.
  revert i j. induction l as [|y l IH]; intros i j Hi Hj Hlt.
  - destruct i; discriminate.
  - apply Before_cons. destruct i as [|i]; simpl in Hi.
    + inversion Hi; subst. left. split; auto.
      destruct j as [|j]; [lia|]. simpl in Hj. eapply nth_error_In; eauto.
    + right. destruct j as [|j]; [lia|]. simpl in Hj.
      apply (IH i j); auto. lia.
Qed.

Lemma Before_map {B} (f : A -> B) l x y :
  Before (map f l) x y -> exists a b, x = f a /\ y = f b /\ Before l a b.
Proof.
  revert x y. induction l as [|z l IH]; intros x y (l1 & l2 & l3 & E).
  - destruct l1; discriminate.
  - destruct l1 as [|x' l1]; simpl in E.
    + inversion E as [[Ex El]]. subst x.
      assert (Hin : In y (map f l)).
      { rewrite El. apply in_or_app. right. now left. }
      apply in_map_iff in Hin. destruct Hin as (b & <- & Hin).
      exists z, b. repeat split; auto. apply Before_cons. now left.
    + inversion E as [[Ex El]].
      destruct (IH x y) as (a & b & -> & -> & Hb); [now exists l1, l2, l3|].
      exists a, b. repeat split; auto. apply Before_cons. now right.
Qed.

Lemma Before_map_intro {B} (f : A -> B) l a b :
  Before l a b -> Before (map f l) (f a) (f b).
Proof.
  intros (l1 & l2 & l3 & ->). exists (map f l1), (map f l2), (map f l3).
  now rewrite !map_app; simpl; rewrite map_app.
Qed.
End BeforeFacts.

(** In a list without repetition, order of positions is order of first
    occurrence in any list it was collected from by [append_new]. *)
Lemma index_of_app_In x l l' : In x l -> index_of x (l ++ l') = index_of x l.
Proof.
  induction l as [|y l IH]; simpl; [tauto|].
  intros Hin. destruct (Z.eqb y x) eqn:E; auto.
  apply Z.eqb_neq in E. destruct Hin as [->|Hin]; [congruence|]. now rewrite IH.
Qed.

Lemma index_of_app_notIn x l l' :
  ~ In x l -> index_of x (l ++ l') = (List.length l + index_of x l')%nat.
Proof.
  induction l as [|y l IH]; simpl; auto.
  intros Hn. destruct (Z.eqb y x) eqn:E.
  - apply Z.eqb_eq in E. tauto.
  - rewrite IH; tauto.
Qed.

Lemma index_of_lt_length x l : In x l <-> (index_of x l < List.length l)%nat.
Proof.
  induction l as [|y l IH]; simpl; [lia|].
  destruct (Z.eqb y x) eqn:E.
  - apply Z.eqb_eq in E. split; [lia | auto].
  - apply Z.eqb_neq in E. rewrite <- Nat.succ_lt_mono, <- IH. tauto.
Qed.

Lemma Before_index_of l a b :
  NoDup l -> Before l a b -> (index_of a l < index_of b l)%nat.
Proof.
  intros Hnd (l1 & l2 & l3 & ->).
  assert (Ha : ~ In a (l1 ++ l2 ++ b :: l3)) by now apply NoDup_remove_2.
  assert (Hb : ~ In b ((l1 ++ a :: l2) ++ l3)).
  { apply NoDup_remove_2. now rewrite <- app_assoc. }
  assert (Ha1 : ~ In a l1) by (intros Hi; apply Ha, in_or_app; auto).
  assert (Hb1 : ~ In b l1).
  { intros Hi. apply Hb. apply in_or_app. left. apply in_or_app. auto. }
  assert (Hab : Z.eqb a b = false).
  { apply Z.eqb_neq. intros ->. apply Ha, in_or_app. right.
    apply in_or_app. right. now left. }
  rewrite !index_of_app_notIn by assumption.
  simpl. rewrite Z.eqb_refl, Hab. lia.
Qed.

Lemma append_new_order l xs a b :
  NoDup l -> Before (append_new l xs) a b ->
  (index_of a (l ++ xs) < index_of b (l ++ xs))%nat.
Proof.
  revert l. induction xs as [|y xs IH]; intros l Hnd Hb; simpl in Hb.
  - rewrite app_nil_r. now apply Before_index_of.
  - destruct (mem y l) eqn:E.
    + apply mem_In in E. specialize (IH l Hnd Hb).
      assert (Hy : forall z, ~ In z l -> Z.eqb y z = false).
      { intros z Hz. apply Z.eqb_neq. intros ->. contradiction. }
      destruct (in_dec Z.eq_dec a l) as [Hal|Hal];
        destruct (in_dec Z.eq_dec b l) as [Hbl|Hbl].
      * rewrite !index_of_app_In in * by assumption. exact IH.
      * rewrite index_of_app_In in * by assumption.
        rewrite index_of_app_notIn in * by assumption.
        apply index_of_lt_length in Hal. lia.
      * rewrite index_of_app_notIn in IH by assumption.
        rewrite (index_of_app_In b l xs) in IH by assumption.
        apply index_of_lt_length in Hbl. lia.
      * rewrite !index_of_app_notIn in * by assumption.
        simpl. rewrite !Hy by assumption. lia.
    + apply mem_not_In in E.
      assert (Hnd' : NoDup (l ++ [y])).
      { apply NoDup_app; auto.
        - constructor; [tauto | constructor].
        - intros z Hz [<-|[]]. contradiction. }
      specialize (IH (l ++ [y]) Hnd' Hb).
      now rewrite <- app_assoc in IH.
Qed.

(** ** [sort] and [slice] *)

Section SortFacts.
Context {num : Type} `{Number num} {A : Type}.
Variable cmp : A -> A -> num.

Lemma sort_insert_perm x l : Permutation (sort_insert cmp x l) (x :: l).
Proof.
  induction l as [|y l IH]; simpl; auto.
  destruct (positive (cmp x y)); auto.
  rewrite IH. apply perm_swap.
Qed.

Lemma sort_perm l : Permutation (sort cmp l) l.
Proof.
  induction l as [|x l IH]; simpl; auto.
  rewrite sort_insert_perm. now constructor.
Qed.

(** Stability: an element gets in front of one that preceded it only when
    the comparator puts the latter strictly after it. *)
Lemma sort_insert_before x l a b :
  Before (sort_insert cmp x l) a b ->
  Before (x :: l) a b \/ (b = x /\ In a l /\ positive (cmp x a) = true).
Proof.
  induction l as [|y l IH]; simpl; auto.
  destruct (positive (cmp x y)) eqn:E; auto.
  intros Hb. apply Before_cons in Hb. destruct Hb as [[-> Hin]|Hb].
  - apply (Permutation_in _ (sort_insert_perm x l)) in Hin.
    destruct Hin as [<-|Hin].
    + right. split; [reflexivity|]. split; [now left | assumption].
    + left. apply Before_cons. right. apply Before_cons. now left.
  - apply IH in Hb. destruct Hb as [Hb|(-> & Hin & Hp)].
    + left. apply Before_cons in Hb. apply Before_cons.
      destruct Hb as [[-> Hin]|Hb].
      * left. split; auto. now right.
      * right. apply Before_cons. now right.
    + right. split; [reflexivity|]. split; [now right | assumption].
Qed.

Lemma sort_stable l a b :
  Before (sort cmp l) a b -> Before l a b \/ positive (cmp b a) = true.
Proof.
  revert a b. induction l as [|x l IH]; intros a b; simpl.
  - intros Hb. now apply Before_nil in Hb.
  - intros Hb. apply sort_insert_before in Hb.
    destruct Hb as [Hb|(-> & _ & Hp)]; auto.
    apply Before_cons in Hb. destruct Hb as [[-> Hin]|Hb].
    + left. apply Before_cons. left. split; auto.
      now apply (Permutation_in _ (sort_perm l)).
    + apply IH in Hb. destruct Hb as [Hb|Hp]; auto.
      left. apply Before_cons. now right.
Qed.

End SortFacts.

Lemma slice_0 {A} (limit : Z) (l : list A) :
  slice 0 limit l
  = firstn (Z.to_nat (relative_index (Z.of_nat (List.length l)) limit)) l.
Proof.
  unfold slice. replace (relative_index (Z.of_nat (List.length l)) 0) with 0%Z.
  - simpl. now rewrite Z.sub_0_r.
  - unfold relative_index. simpl. lia.
Qed.

Lemma slice_0_nonneg {A} (limit : Z) (l : list A) :
  (0 <= limit)%Z -> slice 0 limit l = firstn (Z.to_nat limit) l.
Proof.
  intros Hl. rewrite slice_0. unfold relative_index.
  destruct (limit <? 0)%Z eqn:E; [lia|].
  destruct (Z.le_ge_cases limit (Z.of_nat (List.length l))).
  - now rewrite Z.min_l.
  - rewrite Z.min_r, Nat2Z.id by assumption. rewrite firstn_all.
    symmetry. apply firstn_all2. lia.
Qed.

Lemma slice_0_all {A} (limit : Z) (l : list A) :
  (Z.of_nat (List.length l) <= limit)%Z -> slice 0 limit l = l.
Proof.
  intros Hl. rewrite slice_0_nonneg by lia. apply firstn_all2. lia.
Qed.

Lemma slice_0_zero {A} (l : list A) : slice 0 0 l = [].
Proof. now rewrite slice_0_nonneg. Qed.

Lemma In_slice_0 {A} (limit : Z) (l : list A) x : In x (slice 0 limit l) -> In x l.
Proof.
  rewrite slice_0. intros Hin.
  rewrite <- (firstn_skipn (Z.to_nat (relative_index (Z.of_nat (List.length l)) limit)) l).
  apply in_or_app. now left.
Qed.

Lemma Before_slice_0 {A} (limit : Z) (l : list A) a b :
  Before (slice 0 limit l) a b -> Before l a b.
Proof. rewrite slice_0. apply Before_firstn. Qed.

Lemma NoDup_firstn {A} n (l : list A) : NoDup l -> NoDup (firstn n l).
Proof.
  intros Hnd. rewrite <- (firstn_skipn n l) in Hnd. now apply NoDup_app_remove_r in Hnd.
Qed.

(** ** Shape of the output *)

Section OutputFacts.
Context {num : Type} `{Number num}.
Implicit Types (st : Maps num) (limit : Z).

Lemma ranked_results_ids st limit :
  map (fun r : Result num => id r) (ranked_results st limit)
  = map fst (slice 0 limit (sort by_score_desc (entries (scores st)))).
Proof. unfold ranked_results. now rewrite map_map. Qed.

Lemma In_ranked_results st limit (r : Result num) :
  In r (ranked_results st limit) ->
  In (id r, score r) (scores st)
  /\ content r = nullish (map_get (contentMap st) (id r)) EmptyString.
Proof.
  unfold ranked_results. intros Hin. apply in_map_iff in Hin.
  destruct Hin as ([x s] & <- & Hin). simpl. split; auto.
  apply In_slice_0 in Hin.
  now apply (Permutation_in _ (sort_perm by_score_desc (entries (scores st)))) in Hin.
Qed.

Lemma ranked_results_NoDup st limit :
  NoDup (keys (scores st)) ->
  NoDup (map (fun r : Result num => id r) (ranked_results st limit)).
Proof.
  intros Hnd. rewrite ranked_results_ids, slice_0, <- firstn_map.
  apply NoDup_firstn.
  eapply Permutation_NoDup; [|exact Hnd].
  apply Permutation_map, Permutation_sym, sort_perm.
Qed.

(** Every result carries the score its id has in [scores]. *)
Lemma ranked_results_score st limit (r : Result num) :
  NoDup (keys (scores st)) ->
  In r (ranked_results st limit) -> map_get (scores st) (id r) = Some (score r).
Proof.
  intros Hnd Hin. apply In_map_get; auto. now apply In_ranked_results in Hin.
Qed.

Lemma rrfFusion_weighted_one kw sem (k : num) limit :
  rrfFusion kw sem k limit = rrfFusionWeighted kw sem k one one limit.
Proof. reflexivity. Qed.

Lemma fused_result_score kw sem (k wk ws : num) limit (r : Result num) :
  In r (rrfFusionWeighted kw sem k wk ws limit) ->
  fused_score kw sem k wk ws (id r) = Some (score r).
Proof.
  intros Hin. apply ranked_results_score in Hin; auto. apply fused_scores_NoDup.
Qed.

(** Every result carries the content of the last row written for its id. *)
Lemma fused_result_content kw sem (k wk ws : num) limit (r : Result num) :
  In r (rrfFusionWeighted kw sem k wk ws limit) ->
  exists row, last_row (id r) (kw ++ sem) = Some row /\ content r = content row.
Proof.
  intros Hin. apply In_ranked_results in Hin. destruct Hin as [Hin Hc].
  rewrite fused_contentMap in Hc.
  assert (Hk : In (id r) (keys (scores (fused_maps kw sem k wk ws)))).
  { change (id r) with (fst (id r, score r)). now apply in_map. }
  rewrite fused_scores_keys, append_new_In in Hk. destruct Hk as [[]|Hk].
  destruct (last_row (id r) (kw ++ sem)) as [row|] eqn:E.
  - exists row. auto.
  - apply last_row_None in E. unfold encounter in Hk. unfold ids in E.
    rewrite map_app in E. contradiction.
Qed.

(** Without truncation the output lists the keys of [scores], reordered. *)
Lemma ranked_results_all st limit :
  (Z.of_nat (List.length (scores st)) <= limit)%Z ->
  Permutation (map (fun r : Result num => id r) (ranked_results st limit))
              (keys (scores st)).
Proof.
  intros Hl. rewrite ranked_results_ids, slice_0_all.
  - apply Permutation_map, sort_perm.
  - now rewrite (Permutation_length (sort_perm by_score_desc (entries (scores st)))).
Qed.
End OutputFacts.

(** ** Scores over the rationals *)

Lemma positive_Q (x : Q) : positive x = true <-> 0 < x.
Proof.
  simpl. rewrite Qlt_alt. destruct (0 ?= x); split; congruence.
Qed.

Lemma positive_Q_false (x : Q) : positive x = false <-> x <= 0.
Proof.
  rewrite <- not_true_iff_false, positive_Q. split; [apply Qnot_lt_le | apply Qle_not_lt].
Qed.

Lemma Qeq_opt_refl x : Qeq_opt x x.
Proof. destruct x; simpl; auto. reflexivity. Qed.

Lemma Qeq_opt_sym x y : Qeq_opt x y -> Qeq_opt y x.
Proof. destruct x, y; simpl; auto. intros E. now symmetry. Qed.

Lemma Qeq_opt_trans x y z : Qeq_opt x y -> Qeq_opt y z -> Qeq_opt x z.
Proof.
  destruct x, y, z; simpl; auto; try tauto. intros E1 E2. now rewrite E1.
Qed.

Lemma scores_forEach_other {num} `{Number num} (weight k : num) rows i st x :
  ~ In x (ids rows) ->
  map_get (scores (forEach_from (accumulate weight k) rows i st)) x
  = map_get (scores st) x.
Proof.
  revert i st. induction rows as [|r rows IH]; intros i st Hn; simpl; auto.
  simpl in Hn. rewrite IH by tauto. simpl.
  apply map_get_set_other. tauto.
Qed.

Lemma rank_sum_absent weight k x rows i :
  ~ In x (ids rows) -> rank_sum weight k x rows i == 0.
Proof.
  revert i. induction rows as [|r rows IH]; intros i Hn; simpl; [reflexivity|].
  simpl in Hn. rewrite IH by tauto.
  destruct (Z.eqb (id r) x) eqn:E; [|lra].
  apply Z.eqb_eq in E. tauto.
Qed.

Lemma mem_cons x y l : mem x (y :: l) = Z.eqb x y || mem x l.
Proof. reflexivity. Qed.

Lemma scores_forEach_Q (weight k : Q) rows i st x :
  Qeq_opt (map_get (scores (forEach_from (accumulate weight k) rows i st)) x)
          (if mem x (ids rows)
           then Some (nullish (map_get (scores st) x) 0 + rank_sum weight k x rows i)
           else map_get (scores st) x).
Proof.
  revert i st. induction rows as [|r rows IH]; intros i st.
  - simpl. apply Qeq_opt_refl.
  - cbn [forEach_from ids map rank_sum]. rewrite mem_cons.
    eapply Qeq_opt_trans; [apply IH|]. fold (ids rows).
    rewrite (Z.eqb_sym x (id r)).
    destruct (mem x (ids rows)) eqn:Em; destruct (Z.eqb (id r) x) eqn:E; simpl.
    + apply Z.eqb_eq in E. rewrite <- E, map_get_set_same. simpl. lra.
    + apply Z.eqb_neq in E. rewrite map_get_set_other by assumption. lra.
    + apply Z.eqb_eq in E. rewrite <- E, map_get_set_same. simpl.
      apply mem_not_In in Em.
      pose proof (@rank_sum_absent weight k x rows (S i) Em) as Hz.
      rewrite <- E in Hz. lra.
    + apply Z.eqb_neq in E. rewrite map_get_set_other by assumption.
      apply Qeq_opt_refl.
Qed.

(** The fused score is the sum of the two lists' contributions. *)
Lemma fused_score_closed_form kw sem (k wk ws : Q) x :
  Qeq_opt (fused_score kw sem k wk ws x) (rrf_score kw sem k wk ws x).
Proof.
  unfold fused_score, fused_maps, forEach, rrf_score.
  eapply Qeq_opt_trans; [apply scores_forEach_Q|].
  pose proof (scores_forEach_Q wk k kw 0 empty_maps x) as Hkw.
  simpl (map_get (scores empty_maps) x) in Hkw.
  destruct (mem x (ids sem)) eqn:Es; destruct (mem x (ids kw)) eqn:Ek; simpl.
  - destruct (map_get _ x); simpl in *; [|tauto]. lra.
  - destruct (map_get _ x); simpl in *; [tauto|].
    apply mem_not_In in Ek. pose proof (@rank_sum_absent wk k x kw 0%nat Ek). lra.
  - destruct (map_get _ x); simpl in *; [|tauto].
    apply mem_not_In in Es. pose proof (@rank_sum_absent ws k x sem 0%nat Es). lra.
  - destruct (map_get _ x); simpl in *; tauto.
Qed.

Lemma rank_sum_monotone (w1 w2 k : Q) x rows i :
  0 < k -> w1 <= w2 -> rank_sum w1 k x rows i <= rank_sum w2 k x rows i.
Proof.
  intros Hk Hw. revert i. induction rows as [|r rows IH]; intros i; simpl.
  - apply Qle_refl.
  - apply Qplus_le_compat; [|apply IH].
    destruct (Z.eqb (id r) x); [|apply Qle_refl].
    apply Qmult_le_compat_r; auto.
    apply Qinv_le_0_compat.
    assert (0 <= inject_Z (Z.of_nat i)).
    { change 0 with (inject_Z 0). rewrite <- Zle_Qle. lia. }
    lra.
Qed.

(** ** The output is in descending order of score *)

Lemma sort_insert_descending x l :
  StronglySorted score_desc l ->
  StronglySorted score_desc (sort_insert by_score_desc x l).
Proof.
  induction l as [|y l IH]; intros Hs; cbn [sort_insert].
  - repeat constructor.
  - inversion Hs as [|? ? Hl Hy]; subst.
    destruct (positive (by_score_desc x y)) eqn:E.
    + apply positive_Q in E. unfold by_score_desc in E. cbn [sub Q_number] in E.
      constructor; auto.
      apply (Permutation_Forall (Permutation_sym (sort_insert_perm by_score_desc x l))).
      constructor; auto. unfold score_desc. lra.
    + apply positive_Q_false in E. unfold by_score_desc in E. cbn [sub Q_number] in E.
      constructor; auto. constructor.
      * unfold score_desc. lra.
      * eapply Forall_impl; [|exact Hy]. unfold score_desc. intros z Hz. lra.
Qed.

Lemma sort_descending l : StronglySorted score_desc (sort by_score_desc l).
Proof.
  induction l as [|x l IH]; simpl; [constructor | now apply sort_insert_descending].
Qed.

Lemma StronglySorted_firstn {A} (R : A -> A -> Prop) n l :
  StronglySorted R l -> StronglySorted R (firstn n l).
Proof.
  revert n. induction l as [|x l IH]; intros n Hs.
  - rewrite firstn_nil. constructor.
  - destruct n as [|n]; simpl; [constructor|].
    inversion Hs as [|? ? Hl Hx]; subst. constructor; auto.
    rewrite Forall_forall in *. intros y Hy. apply Hx.
    rewrite <- (firstn_skipn n l). apply in_or_app. now left.
Qed.

Lemma StronglySorted_map {A B} (R : A -> A -> Prop) (R' : B -> B -> Prop) (f : A -> B) l :
  (forall a b, R a b -> R' (f a) (f b)) ->
  StronglySorted R l -> StronglySorted R' (map f l).
Proof.
  intros Hf. induction 1 as [|x l Hl IH Hx]; simpl; constructor; auto.
  rewrite Forall_forall in *. intros y Hy. apply in_map_iff in Hy.
  destruct Hy as (a & <- & Ha). auto.
Qed.

(** Step 4 of the fusion: no result is followed by one with a greater
    score. *)
Lemma rrfFusion_descending kw sem (k wk ws : Q) limit :
  StronglySorted (fun r1 r2 : Result Q => score r2 <= score r1)
                 (rrfFusionWeighted kw sem k wk ws limit).
Proof.
  unfold rrfFusionWeighted, ranked_results. rewrite slice_0.
  apply (StronglySorted_map (R:=score_desc)); [auto|].
  apply StronglySorted_firstn, sort_descending.
Qed.

(** ** A single list with distinct ids *)

Lemma map_set_new {V} (m : Map V) key (v : V) :
  ~ In key (keys m) -> map_set m key v = m ++ [(key, v)].
Proof.
  induction m as [|[k' v'] m IH]; simpl; auto.
  intros Hn. destruct (Z.eqb k' key) eqn:E.
  - apply Z.eqb_eq in E. tauto.
  - rewrite IH; tauto.
Qed.

Lemma forEach_distinct {num} `{Number num} (weight k : num) rows i (st : Maps num) :
  NoDup (ids rows) ->
  (forall x, In x (ids rows) -> ~ In x (keys (scores st))) ->
  scores (forEach_from (accumulate weight k) rows i st)
  = scores st ++ score_entries weight k rows i.
Proof.
  revert i st. induction rows as [|r rows IH]; intros i st Hnd Hfresh; simpl.
  - now rewrite app_nil_r.
  - simpl in Hnd. inversion Hnd as [|? ? Hr Hnd']; subst.
    assert (Hnew : ~ In (id r) (keys (scores st))) by (apply Hfresh; now left).
    rewrite IH; auto.
    + simpl. rewrite map_set_new by assumption.
      apply map_get_None in Hnew. rewrite Hnew. simpl.
      now rewrite <- app_assoc.
    + intros x Hx. simpl. rewrite keys_map_set.
      assert (Hxs : ~ In x (keys (scores st))) by (apply Hfresh; now right).
      destruct (mem (id r) (keys (scores st))); auto.
      rewrite in_app_iff. simpl. intros [Hc|[Hc|[]]]; [contradiction|].
      subst x. contradiction.
Qed.

Lemma last_row_distinct rows r :
  NoDup (ids rows) -> In r rows -> last_row (id r) rows = Some r.
Proof.
  induction rows as [|r' rows IH]; simpl; [tauto|].
  intros Hnd Hin. inversion Hnd as [|? ? Hr Hnd']; subst.
  rewrite last_row_cons. destruct Hin as [->|Hin].
  - apply last_row_None in Hr. rewrite Hr. now rewrite Z.eqb_refl.
  - now rewrite IH.
Qed.

Lemma to_result_score_entries {num} `{Number num} (weight k : num) cm rows i :
  (forall r, In r rows -> map_get cm (id r) = Some (content r)) ->
  map (to_result cm) (score_entries weight k rows i) = rank_from weight k rows i.
Proof.
  revert i. induction rows as [|r rows IH]; intros i Hcm; simpl; auto.
  rewrite IH by (intros r' Hr'; apply Hcm; now right).
  unfold to_result at 1. simpl. rewrite Hcm by now left. reflexivity.
Qed.

Lemma ofIndex_succ (i : nat) : (ofIndex (S i) : Q) == ofIndex i + 1.
Proof.
  cbn [ofIndex Q_number]. rewrite Nat2Z.inj_succ. unfold Z.succ.
  rewrite inject_Z_plus. reflexivity.
Qed.

Lemma ofIndex_nonneg (i : nat) : 0 <= (ofIndex i : Q).
Proof. cbn [ofIndex Q_number]. change 0 with (inject_Z 0). rewrite <- Zle_Qle. lia. Qed.

Lemma rank_term_decreasing (w d : Q) : 0 <= w -> 0 < d -> w / (d + 1) <= w / d.
Proof.
  intros Hw Hd. apply Qle_shift_div_r; [lra|].
  assert (E : w / d * (d + 1) == w + w / d) by (field; lra).
  rewrite E. assert (0 <= w / d) by (apply Qle_shift_div_l; lra). lra.
Qed.

(** With [k > 0] and a weight that is not negative the scores of one list
    do not increase along it, so [sort] leaves its entries where they are. *)
Lemma sort_score_entries (weight k : Q) rows i :
  0 < k -> 0 <= weight ->
  sort by_score_desc (score_entries weight k rows i) = score_entries weight k rows i.
Proof.
  intros Hk Hw. revert i. induction rows as [|r rows IH]; intros i; [reflexivity|].
  cbn [score_entries sort]. fold (score_entries weight k rows (S i)).
  rewrite IH. destruct rows as [|r' rows]; [reflexivity|].
  cbn [score_entries sort_insert].
  match goal with |- (if ?c then _ else _) = _ => assert (Hp : c = false) end.
  { apply positive_Q_false. unfold by_score_desc.
    cbn [snd sub add zero one div Q_number].
    rewrite ofIndex_succ.
    pose proof (ofIndex_nonneg i) as Hi.
    pose proof (@rank_term_decreasing weight (k + ofIndex i + 1) Hw) as Hd.
    assert (E : k + (ofIndex i + 1) + 1 == k + ofIndex i + 1 + 1) by ring.
    rewrite E. specialize (Hd ltac:(lra)). lra. }
  now rewrite Hp.
Qed.

Lemma content_entries_distinct {num} `{Number num} (weight k : num) rows r :
  NoDup (ids rows) -> In r rows ->
  map_get (contentMap (forEach (accumulate weight k) rows empty_maps)) (id r)
  = Some (content r).
Proof.
  intros Hnd Hin. unfold forEach. rewrite contentMap_forEach.
  now rewrite (@last_row_distinct rows r Hnd Hin).
Qed.

(** The fusion of one list with distinct ids: the list itself, scored,
    cut to [limit]. *)
Lemma ranked_single_list (weight k : Q) rows limit :
  0 < k -> 0 <= weight -> (0 <= limit)%Z -> NoDup (ids rows) ->
  ranked_results (forEach (accumulate weight k) rows empty_maps) limit
  = firstn (Z.to_nat limit) (rank_from weight k rows 0).
Proof.
  intros Hk Hw Hl Hnd. unfold ranked_results, entries, forEach.
  rewrite forEach_distinct by (auto; intros x _ []).
  cbn [scores empty_maps app].
  rewrite sort_score_entries, slice_0_nonneg, <- firstn_map by assumption.
  f_equal. apply to_result_score_entries.
  intros r Hr. now apply (@content_entries_distinct Q _ weight k rows r Hnd).
Qed.

(** Over any single list, every result is one of its rows, scored. *)
Lemma fused_result_row {num} `{Number num} kw sem (k wk ws : num) limit (r : Result num) :
  In r (rrfFusionWeighted kw sem k wk ws limit) -> In (row_of r) (kw ++ sem).
Proof.
  intros Hin. apply fused_result_content in Hin. destruct Hin as (row' & Hl & Hc).
  apply last_row_Some in Hl. destruct Hl as [Hin Hid].
  replace (row_of r) with row'; auto.
  destruct row' as [i c], r as [[i' c'] s]. simpl in *. congruence.
Qed.

(** * The specification's statements about the fusion *)

(** ** The documented scenario *)

(** C1.  With [keywordResults] = ids 1, 2 and [semanticResults] = ids 2, 3 (in
    rank order), [k = 60], weights 1 and [limit = 10], the fusion returns
    exactly three results, in the order id 2, id 1, id 3, with the scores
    1/62 + 1/61, 1/61 and 1/62.  This holds for every content the rows carry,
    for [rrfFusion], for the weighted loops with both weights 1 and for the
    Python [rrf_fusion], in exact rational arithmetic and in binary64
    arithmetic alike. *)
Theorem rrfFusion_documented_scenario (c1 c2 c2' c3 : string) :
  let kw := [row 1 c1; row 2 c2] in
  let sem := [row 2 c2'; row 3 c3] in
  let expected_Q : list (Result Q) :=
    [ {| row_of := row 2 c2'; score := (1 / 62 + 1 / 61)%Q |};
      {| row_of := row 1 c1; score := (1 / 61)%Q |};
      {| row_of := row 3 c3; score := (1 / 62)%Q |} ] in
  let expected_binary64 : list (Result float) :=
    [ {| row_of := row 2 c2'; score := (1 / 62 + 1 / 61)%float |};
      {| row_of := row 1 c1; score := (1 / 61)%float |};
      {| row_of := row 3 c3; score := (1 / 62)%float |} ] in
  rrfFusion kw sem 60%Q 10 = expected_Q
  /\ rrfFusionWeighted kw sem 60%Q 1%Q 1%Q 10 = expected_Q
  /\ rrf_fusion kw sem 60%Q 10 = Normal expected_Q
  /\ rrfFusion kw sem 60%float 10 = expected_binary64
  /\ rrfFusionWeighted kw sem 60%float 1%float 1%float 10 = expected_binary64
  /\ rrf_fusion kw sem 60%float 10 = Normal expected_binary64.
Proof.
  repeat split; vm_compute; reflexivity.
Qed.

(** ** Content of a fused result *)

(** C2, as stated, fails: for an id in both lists the second loop overwrites
    the content the first loop recorded, in [rrfFusion] and in the Python
    [rrf_fusion] alike. *)
Lemma content_first_writer_counterexample :
  map (fun r : Result Q => (id r, content r))
      (rrfFusion [row 1 "keyword text"] [row 1 "semantic text"] 60%Q 10)
  = [(1%Z, "semantic text"%string)]
  /\ "semantic text"%string <> "keyword text"%string
  /\ rrf_fusion [row 1 "keyword text"] [row 1 "semantic text"] 60%Q 10
     = Normal [ {| row_of := row 1 "semantic text";
                   score := (0 + 1 / (60 + 1) + 1 / (60 + 1))%Q |} ].
Proof.
  split; [vm_compute; reflexivity | split; [discriminate | vm_compute; reflexivity]].
Qed.

(** C2, amended.  The content of a fused result is the content of the last
    row written for its id: for an id that occurs in [semanticResults] (the
    list processed last) it is the content that list supplies, whatever
    [keywordResults] supplied; only for an id absent from [semanticResults] is
    it the content from [keywordResults]. *)
Theorem fused_content_last_writer {num} `{Number num}
    (kw sem : list Row) (k wk ws : num) (limit : Z) (r : Result num) :
  In r (rrfFusionWeighted kw sem k wk ws limit) ->
  (In (id r) (ids sem) ->
     exists row, last_row (id r) sem = Some row /\ content r = content row)
  /\ (~ In (id r) (ids sem) ->
     exists row, last_row (id r) kw = Some row /\ content r = content row).
Proof.
  intros Hin. apply fused_result_content in Hin.
  destruct Hin as (row & Hl & Hc). rewrite last_row_app in Hl. split.
  - intros Hs. destruct (last_row (id r) sem) as [row'|] eqn:E.
    + exists row'. split; congruence.
    + apply last_row_None in E. contradiction.
  - intros Hs. apply last_row_None in Hs. rewrite Hs in Hl. eauto.
Qed.

Lemma fused_content_last_writer_witness :
  let r : Result Q := {| row_of := row 1 "semantic text"; score := 1 / 61 + 1 / 61 |} in
  In r (rrfFusionWeighted [row 1 "keyword text"] [row 1 "semantic text"] 60%Q 1%Q 1%Q 10)
  /\ In (id r) (ids [row 1 "semantic text"])
  /\ exists row', last_row (id r) [row 1 "semantic text"] = Some row'
                  /\ content r = content row'.
Proof.
  intros r.
  assert (Hin : In r (rrfFusionWeighted [row 1 "keyword text"] [row 1 "semantic text"]
                        60%Q 1%Q 1%Q 10)) by (vm_compute; left; reflexivity).
  assert (Hs : In (id r) (ids [row 1 "semantic text"])) by (simpl; left; reflexivity).
  split; [exact Hin | split; [exact Hs|]].
  exact (proj1 (fused_content_last_writer _ _ _ _ _ _ _ Hin) Hs).
Defined.

(** ** Argument validation *)

(** C3, as stated, fails: the call returns a list when [k <= 0], when a weight
    is negative and when [limit < 0]; it returns even when [k + i + 1] is 0,
    where binary64 division gives infinity.  The Python [rrf_fusion] returns
    a list for [k = 0] and for [limit < 0] as well. *)
Lemma invalid_argument_counterexample :
  rrfFusionWeighted_call [row 1 "a"; row 2 "b"] [] 0%Q 1%Q 1%Q 10
  = Normal [ {| row_of := row 1 "a"; score := (0 + 1 / (0 + 0 + 1))%Q |};
             {| row_of := row 2 "b"; score := (0 + 1 / (0 + 1 + 1))%Q |} ]
  /\ rrfFusionWeighted_call [row 1 "a"] [] 60%Q (-1)%Q 1%Q 10
     = Normal [ {| row_of := row 1 "a"; score := (0 + (-1) / (60 + 0 + 1))%Q |} ]
  /\ rrfFusionWeighted_call [] [row 1 "a"] 60%Q 1%Q (-1)%Q 10
     = Normal [ {| row_of := row 1 "a"; score := (0 + (-1) / (60 + 0 + 1))%Q |} ]
  /\ rrfFusionWeighted_call [row 1 "a"; row 2 "b"] [] 60%Q 1%Q 1%Q (-1)
     = Normal [ {| row_of := row 1 "a"; score := (0 + 1 / (60 + 0 + 1))%Q |} ]
  /\ rrfFusionWeighted_call [row 1 "a"] [] (-1)%float 1%float 1%float 10
     = Normal [ {| row_of := row 1 "a"; score := infinity |} ]
  /\ rrf_fusion [row 1 "a"; row 2 "b"] [] 0%Q 10
     = Normal [ {| row_of := row 1 "a"; score := (0 + 1 / (0 + 1))%Q |};
                {| row_of := row 2 "b"; score := (0 + 1 / (0 + 2))%Q |} ]
  /\ rrf_fusion [row 1 "a"; row 2 "b"] [] 60%Q (-1)
     = Normal [ {| row_of := row 1 "a"; score := (0 + 1 / (60 + 1))%Q |} ].
Proof. repeat split; vm_compute; reflexivity. Qed.

(** The Python loops raise nothing but [ZeroDivisionError], and not even
    that when no [k + rank] is zero. *)
Lemma py_for_raises {num} `{Number num} (weight k : num) rows rank st e :
  py_for (py_accumulate weight k) rows rank st = Throw e -> e = ZeroDivisionError.
Proof.
  revert rank st. induction rows as [|r rows IH]; intros rank st; simpl.
  - discriminate.
  - unfold py_accumulate at 1. destruct (is_zero (add k (ofIndex rank))).
    + now intros [= <-].
    + apply IH.
Qed.

Lemma py_for_returns (weight k : Q) rows rank st :
  0 <= k -> (0 < rank)%nat ->
  exists st', py_for (py_accumulate weight k) rows rank st = Normal st'.
Proof.
  intros Hk. revert rank st. induction rows as [|r rows IH]; intros rank st Hr; simpl.
  - eauto.
  - unfold py_accumulate at 1.
    assert (Hz : is_zero (add k (ofIndex rank)) = false).
    { cbn [is_zero add ofIndex Q_number]. apply not_true_iff_false.
      rewrite Qeq_bool_iff. intros E.
      assert (0 < inject_Z (Z.of_nat rank)).
      { change 0 with (inject_Z 0). rewrite <- Zlt_Qlt. lia. }
      lra. }
    rewrite Hz. apply IH. lia.
Qed.

(** C3, amended.  The fusion validates none of its arguments.  For every
    [k], every pair of weights and every [limit], valid or not, and for all
    input lists, the call of [rrfFusion] returns a list and throws no error.
    The Python [rrf_fusion] raises no error of its own either: the one error
    it can end with is the [ZeroDivisionError] of a zero [k + rank], which no
    [k >= 0] produces. *)
Theorem rrfFusion_never_throws {num} `{Number num}
    (kw sem : list Row) (k wk ws : num) (limit : Z) :
  (exists out, rrfFusionWeighted_call kw sem k wk ws limit = Normal out)
  /\ (forall e, rrfFusionWeighted_call kw sem k wk ws limit <> Throw e)
  /\ (forall e, rrf_fusion kw sem k limit = Throw e -> e = ZeroDivisionError)
  /\ (forall (kQ : Q), 0 <= kQ -> exists out, rrf_fusion kw sem kQ limit = Normal out).
Proof.
  split; [|split; [|split]].
  - eexists. reflexivity.
  - intros e. discriminate.
  - intros e. unfold rrf_fusion.
    destruct (py_for (py_accumulate one k) kw 1 empty_maps) as [st1|e1] eqn:E1.
    + destruct (py_for (py_accumulate one k) sem 1 st1) as [st2|e2] eqn:E2.
      * discriminate.
      * intros [= <-]. now apply py_for_raises in E2.
    + intros [= <-]. now apply py_for_raises in E1.
  - intros kQ Hk. unfold rrf_fusion.
    destruct (@py_for_returns one kQ kw 1 empty_maps Hk) as (st1 & ->); [lia|].
    destruct (@py_for_returns one kQ sem 1 st1 Hk) as (st2 & ->); [lia|].
    eexists. reflexivity.
Qed.

(** ** Empty input lists *)

(** C4.  For valid [k], weights and [limit], a call with an empty list
    returns normally.  With both lists empty the output is empty.  With one
    list empty every result is a row of the other list with a score; and when
    that list's ids are pairwise distinct, as in a ranked list, the output is
    exactly that list in its own order, row [i] scored
    [0 + weight / (k + i + 1)] with that list's weight, cut to [limit]. *)
Theorem fusion_with_empty_lists (k wk ws : Q) (limit : Z) :
  0 < k -> 0 <= wk -> 0 <= ws -> (0 <= limit)%Z ->
  (forall kw sem, kw = [] \/ sem = [] ->
     exists out, rrfFusionWeighted_call kw sem k wk ws limit = Normal out)
  /\ rrfFusionWeighted [] [] k wk ws limit = []
  /\ (forall kw r, In r (rrfFusionWeighted kw [] k wk ws limit) -> In (row_of r) kw)
  /\ (forall sem r, In r (rrfFusionWeighted [] sem k wk ws limit) -> In (row_of r) sem)
  /\ (forall kw, NoDup (ids kw) ->
        rrfFusionWeighted kw [] k wk ws limit
        = firstn (Z.to_nat limit) (rank_from wk k kw 0))
  /\ (forall sem, NoDup (ids sem) ->
        rrfFusionWeighted [] sem k wk ws limit
        = firstn (Z.to_nat limit) (rank_from ws k sem 0)).
Proof.
  intros Hk Hwk Hws Hl. repeat split.
  - intros kw sem _. eexists. reflexivity.
  - unfold rrfFusionWeighted, ranked_results. simpl. now rewrite slice_0_nonneg, firstn_nil.
  - intros kw r Hin. apply fused_result_row in Hin. now rewrite app_nil_r in Hin.
  - intros sem r Hin. now apply fused_result_row in Hin.
  - intros kw Hnd. now apply ranked_single_list.
  - intros sem Hnd. now apply ranked_single_list.
Qed.

Lemma fusion_with_empty_lists_witness :
  0 < 60 /\ 0 <= 1 /\ (0 <= 10)%Z
  /\ rrfFusionWeighted [] [] 60%Q 1%Q 1%Q 10 = []
  /\ rrfFusionWeighted [row 7 "g"; row 5 "e"] [] 60%Q 1%Q 1%Q 10
     = firstn 10 (rank_from 1%Q 60%Q [row 7 "g"; row 5 "e"] 0).
Proof.
  assert (Hk : 0 < 60) by reflexivity.
  assert (Hw : 0 <= 1) by discriminate.
  assert (Hl : (0 <= 10)%Z) by discriminate.
  assert (Hnd : NoDup (ids [row 7 "g"; row 5 "e"])).
  { simpl. repeat constructor; simpl; intuition discriminate. }
  destruct (@fusion_with_empty_lists 60 1 1 10 Hk Hw Hw Hl) as (_ & He & _ & _ & Hkw & _).
  split; [exact Hk|]. split; [exact Hw|]. split; [exact Hl|].
  split; [exact He | exact (Hkw _ Hnd)].
Defined.

(** ** Coverage of the ids *)

Lemma fused_scores_length {num} `{Number num} kw sem (k wk ws : num) :
  List.length (scores (fused_maps kw sem k wk ws)) = distinct_ids kw sem.
Proof.
  unfold distinct_ids.
  rewrite <- (length_map fst (scores (fused_maps kw sem k wk ws))).
  fold (keys (scores (fused_maps kw sem k wk ws))).
  rewrite fused_scores_keys. apply Permutation_length, NoDup_Permutation.
  - apply append_new_NoDup. constructor.
  - apply NoDup_nodup.
  - intros x. rewrite append_new_In, nodup_In. simpl. tauto.
Qed.

(** C5.  No id occurs twice in the output, whatever the limit; and when
    [limit] is at least the number of distinct ids of the two lists, the ids of
    the output are exactly the ids that occur in [keywordResults] or in
    [semanticResults].  The weights play no part in this: an id gets its
    entry from the loop whether or not its weight is positive. *)
Theorem fused_ids_are_the_union {num} `{Number num}
    (kw sem : list Row) (k wk ws : num) (limit : Z) :
  (Z.of_nat (distinct_ids kw sem) <= limit)%Z ->
  NoDup (map (fun r : Result num => id r) (rrfFusionWeighted kw sem k wk ws limit))
  /\ forall x,
       In x (map (fun r : Result num => id r) (rrfFusionWeighted kw sem k wk ws limit))
       <-> In x (ids kw) \/ In x (ids sem).
Proof.
  intros Hl. split.
  - apply ranked_results_NoDup, fused_scores_NoDup.
  - intros x. unfold rrfFusionWeighted.
    assert (Hp : Permutation
                   (map (fun r : Result num => id r)
                        (ranked_results (fused_maps kw sem k wk ws) limit))
                   (keys (scores (fused_maps kw sem k wk ws)))).
    { apply ranked_results_all. now rewrite fused_scores_length. }
    assert (Hk : In x (keys (scores (fused_maps kw sem k wk ws)))
                 <-> In x (ids kw) \/ In x (ids sem)).
    { rewrite fused_scores_keys, append_new_In. unfold encounter.
      rewrite in_app_iff. simpl. tauto. }
    rewrite <- Hk. split; intros Hin.
    + now apply (Permutation_in _ Hp).
    + now apply (Permutation_in _ (Permutation_sym Hp)).
Qed.

Lemma fused_ids_are_the_union_witness :
  (Z.of_nat (distinct_ids [row 1 "a"; row 2 "b"] [row 2 "b"; row 3 "c"]) <= 3)%Z
  /\ NoDup (map (fun r : Result Q => id r)
              (rrfFusionWeighted [row 1 "a"; row 2 "b"] [row 2 "b"; row 3 "c"]
                 60%Q 1%Q 1%Q 3))
  /\ forall x,
       In x (map (fun r : Result Q => id r)
               (rrfFusionWeighted [row 1 "a"; row 2 "b"] [row 2 "b"; row 3 "c"]
                  60%Q 1%Q 1%Q 3))
       <-> In x (ids [row 1 "a"; row 2 "b"]) \/ In x (ids [row 2 "b"; row 3 "c"]).
Proof.
  assert (Hl : (Z.of_nat (distinct_ids [row 1 "a"; row 2 "b"] [row 2 "b"; row 3 "c"])
                <= 3)%Z) by (vm_compute; discriminate).
  split; [exact Hl|].
  exact (@fused_ids_are_the_union Q _ [row 1 "a"; row 2 "b"] [row 2 "b"; row 3 "c"]
           60%Q 1%Q 1%Q 3 Hl).
Defined.

(** ** Ties *)

(** C6, as stated, fails.  Ids 1 (keyword list only) and 2 (semantic list
    only) tie at 1/61: the stated rule puts id 2 first, the code returns id 1
    first, in [rrfFusion] and in the Python [rrf_fusion], in rational and in
    binary64 arithmetic.  Ids 1 and 2 with ranks 1, 2 in the keyword list and
    2, 1 in the semantic list tie as well: the stated rule puts id 2 first
    (better semantic rank), the code returns id 1 first. *)
Lemma tie_break_counterexample :
  (map (fun r : Result Q => (id r, score r))
       (rrfFusion [row 1 "a"] [row 2 "b"] 60%Q 10)
   = [(1%Z, 0 + 1 / (60 + 0 + 1)); (2%Z, 0 + 1 / (60 + 0 + 1))]
   /\ spec_tie_before [row 1 "a"] [row 2 "b"] 1 2 = false
   /\ spec_tie_before [row 1 "a"] [row 2 "b"] 2 1 = true)
  /\ (map (fun r : Result Q => id r)
          (rrfFusion [row 1 "a"; row 2 "b"] [row 2 "b"; row 1 "a"] 60%Q 10)
      = [1%Z; 2%Z]
      /\ Forall (fun r : Result Q => score r == 1 / 61 + 1 / 62)
           (rrfFusion [row 1 "a"; row 2 "b"] [row 2 "b"; row 1 "a"] 60%Q 10)
      /\ spec_tie_before [row 1 "a"; row 2 "b"] [row 2 "b"; row 1 "a"] 1 2 = false
      /\ spec_tie_before [row 1 "a"; row 2 "b"] [row 2 "b"; row 1 "a"] 2 1 = true)
  /\ rrfFusion [row 1 "a"] [row 2 "b"] 60%float 10
     = [ {| row_of := row 1 "a"; score := (1 / 61)%float |};
         {| row_of := row 2 "b"; score := (1 / 61)%float |} ]
  /\ rrf_fusion [row 1 "a"] [row 2 "b"] 60%Q 10
     = Normal [ {| row_of := row 1 "a"; score := (0 + 1 / (60 + 1))%Q |};
                {| row_of := row 2 "b"; score := (0 + 1 / (60 + 1))%Q |} ].
Proof.
  repeat split; try (vm_compute; reflexivity).
  vm_compute. repeat constructor.
Qed.

(** Stability, in any arithmetic: a result is placed before another one
    either because its id was met first or because the comparator puts it
    strictly first ([score r1 - score r2 > 0]). *)
Lemma results_keep_encounter_order {num} `{Number num}
    (kw sem : list Row) (k wk ws : num) (limit : Z) (r1 r2 : Result num) :
  Before (rrfFusionWeighted kw sem k wk ws limit) r1 r2 ->
  positive (sub (score r1) (score r2)) = false ->
  (index_of (id r1) (encounter kw sem) < index_of (id r2) (encounter kw sem))%nat.
Proof.
  intros Hb Hnp. unfold rrfFusionWeighted, ranked_results in Hb.
  apply Before_map in Hb. destruct Hb as (e1 & e2 & -> & -> & Hb).
  apply Before_slice_0, sort_stable in Hb. simpl in Hnp.
  destruct Hb as [Hb|Hp].
  - apply (Before_map_intro fst) in Hb.
    change (map fst (entries (scores (fused_maps kw sem k wk ws))))
      with (keys (scores (fused_maps kw sem k wk ws))) in Hb.
    rewrite fused_scores_keys in Hb.
    apply (append_new_order (l:=[])) in Hb; [exact Hb | constructor].
  - unfold by_score_desc in Hp. congruence.
Qed.

(** In binary64 two equal numbers have a difference that is not positive:
    it is a zero, or NaN for two infinities. *)
Lemma SFsub_of_equal (a b : spec_float) :
  SFeqb a b = true -> SFltb (S754_zero false) (SF64sub a b) = false.
Proof.
  unfold SFeqb, SFltb, SF64sub.
  destruct a as [[|]|[|]| |[|] ma ea], b as [[|]|[|]| |[|] mb eb];
    cbn [SFcompare SFsub]; try discriminate; try reflexivity.
  - destruct (Z.compare ea eb) eqn:Ec; try discriminate.
    destruct (Pos.compare_cont Eq ma mb) eqn:Em; try discriminate.
    intros _. apply Z.compare_eq in Ec. apply Pos.compare_eq in Em. subst.
    cbv zeta. rewrite Z.sub_diag. reflexivity.
  - destruct (Z.compare ea eb) eqn:Ec; try discriminate.
    destruct (Pos.compare_cont Eq ma mb) eqn:Em; try discriminate.
    intros _. apply Z.compare_eq in Ec. apply Pos.compare_eq in Em. subst.
    cbv zeta. rewrite Z.sub_diag. reflexivity.
Qed.

Lemma binary64_sub_of_equal (a b : float) :
  PrimFloat.eqb a b = true -> positive (sub a b) = false.
Proof.
  cbn [positive sub binary64_number].
  rewrite FloatAxioms.eqb_spec, ltb_spec, sub_spec.
  change (Prim2SF 0) with (S754_zero false). apply SFsub_of_equal.
Qed.

(** C6, amended.  Results with equal scores keep their encounter order, and
    nothing else decides a tie: of two results with equal scores, the one
    placed first is the one whose id occurs first in [keywordResults]
    followed by [semanticResults].  This is so in every arithmetic, of any
    two results the comparator does not put in that order
    ([score r1 - score r2] is not positive); in binary64, the arithmetic of
    the program, of any two results whose scores are equal numbers; and in
    exact rational arithmetic, of any two results whose scores are equal. *)
Theorem equal_scores_keep_encounter_order :
  (forall num (N : Number num) (kw sem : list Row) (k wk ws : num) (limit : Z)
          (i j : nat) (r1 r2 : Result num),
     nth_error (rrfFusionWeighted kw sem k wk ws limit) i = Some r1 ->
     nth_error (rrfFusionWeighted kw sem k wk ws limit) j = Some r2 ->
     (i < j)%nat ->
     positive (sub (score r1) (score r2)) = false ->
     (index_of (id r1) (encounter kw sem) < index_of (id r2) (encounter kw sem))%nat)
  /\ (forall (kw sem : list Row) (k wk ws : float) (limit : Z)
             (i j : nat) (r1 r2 : Result float),
        nth_error (rrfFusionWeighted kw sem k wk ws limit) i = Some r1 ->
        nth_error (rrfFusionWeighted kw sem k wk ws limit) j = Some r2 ->
        (i < j)%nat ->
        PrimFloat.eqb (score r1) (score r2) = true ->
        (index_of (id r1) (encounter kw sem) < index_of (id r2) (encounter kw sem))%nat)
  /\ (forall (kw sem : list Row) (k wk ws : Q) (limit : Z)
             (i j : nat) (r1 r2 : Result Q),
        nth_error (rrfFusionWeighted kw sem k wk ws limit) i = Some r1 ->
        nth_error (rrfFusionWeighted kw sem k wk ws limit) j = Some r2 ->
        (i < j)%nat ->
        score r1 == score r2 ->
        (index_of (id r1) (encounter kw sem) < index_of (id r2) (encounter kw sem))%nat).
Proof.
  assert (Hgen : forall num (N : Number num) (kw sem : list Row) (k wk ws : num)
                        (limit : Z) (i j : nat) (r1 r2 : Result num),
            nth_error (rrfFusionWeighted kw sem k wk ws limit) i = Some r1 ->
            nth_error (rrfFusionWeighted kw sem k wk ws limit) j = Some r2 ->
            (i < j)%nat ->
            positive (sub (score r1) (score r2)) = false ->
            (index_of (id r1) (encounter kw sem)
             < index_of (id r2) (encounter kw sem))%nat).
  { intros num N kw sem k wk ws limit i j r1 r2 Hi Hj Hlt Hnp.
    apply (@results_keep_encounter_order num N kw sem k wk ws limit r1 r2); auto.
    exact (@Before_nth_error _ _ _ _ _ _ Hi Hj Hlt). }
  split; [exact Hgen | split].
  - intros kw sem k wk ws limit i j r1 r2 Hi Hj Hlt Heq.
    apply (Hgen float _ kw sem k wk ws limit i j r1 r2 Hi Hj Hlt).
    now apply binary64_sub_of_equal.
  - intros kw sem k wk ws limit i j r1 r2 Hi Hj Hlt Heq.
    apply (Hgen Q _ kw sem k wk ws limit i j r1 r2 Hi Hj Hlt).
    apply positive_Q_false. cbn [sub Q_number]. lra.
Qed.

Lemma equal_scores_keep_encounter_order_witness :
  let out := rrfFusionWeighted [row 1 "a"] [row 2 "b"] 60%float 1%float 1%float 10 in
  let r1 : Result float := {| row_of := row 1 "a"; score := (1 / 61)%float |} in
  let r2 : Result float := {| row_of := row 2 "b"; score := (1 / 61)%float |} in
  nth_error out 0 = Some r1 /\ nth_error out 1 = Some r2 /\ (0 < 1)%nat
  /\ PrimFloat.eqb (score r1) (score r2) = true
  /\ (index_of (id r1) (encounter [row 1 "a"] [row 2 "b"])
      < index_of (id r2) (encounter [row 1 "a"] [row 2 "b"]))%nat.
Proof.
  intros out r1 r2.
  assert (H0 : nth_error out 0 = Some r1) by (vm_compute; reflexivity).
  assert (H1 : nth_error out 1 = Some r2) by (vm_compute; reflexivity).
  assert (Hlt : (0 < 1)%nat) by lia.
  assert (Heq : PrimFloat.eqb (score r1) (score r2) = true) by (vm_compute; reflexivity).
  repeat (split; [assumption|]).
  exact (proj1 (proj2 equal_scores_keep_encounter_order)
           [row 1 "a"] [row 2 "b"] 60%float 1%float 1%float 10%Z
           0%nat 1%nat r1 r2 H0 H1 Hlt Heq).
Defined.

(** ** Swapping the lists, and the semantic weight *)

Lemma rrf_score_swap kw sem (k w : Q) x :
  Qeq_opt (rrf_score kw sem k w w x) (rrf_score sem kw k w w x).
Proof.
  unfold rrf_score. rewrite (orb_comm (mem x (ids sem))).
  destruct (mem x (ids kw) || mem x (ids sem)); simpl; auto. lra.
Qed.

Lemma fused_score_swap kw sem (k w : Q) x :
  Qeq_opt (fused_score kw sem k w w x) (fused_score sem kw k w w x).
Proof.
  eapply Qeq_opt_trans; [apply fused_score_closed_form|].
  eapply Qeq_opt_trans; [apply rrf_score_swap|].
  apply Qeq_opt_sym, fused_score_closed_form.
Qed.

(** C7.  With equal weights, swapping the two lists leaves the fused score
    of every id unchanged: an id has a score in one call exactly when it has
    one in the other, the two scores are equal, and any two results for the
    same id, one from each call, carry equal scores. *)
Theorem equal_weights_swap_scores (kw sem : list Row) (k w : Q) :
  (forall x, Qeq_opt (fused_score kw sem k w w x) (fused_score sem kw k w w x))
  /\ (forall limit limit' (r r' : Result Q),
        In r (rrfFusionWeighted kw sem k w w limit) ->
        In r' (rrfFusionWeighted sem kw k w w limit') ->
        id r = id r' -> score r == score r').
Proof.
  split.
  - apply fused_score_swap.
  - intros limit limit' r r' Hr Hr' Hid.
    apply fused_result_score in Hr, Hr'.
    pose proof (fused_score_swap kw sem k w (id r)) as Hs.
    rewrite Hid in Hs at 2. rewrite Hr, Hr' in Hs. exact Hs.
Qed.

Lemma equal_weights_swap_scores_witness :
  let kw := [row 1 "a"; row 2 "b"] in
  let sem := [row 2 "b"; row 3 "c"] in
  let r : Result Q := {| row_of := row 2 "b"; score := 0 + 1 / (60 + 1 + 1) + 1 / (60 + 0 + 1) |} in
  let r' : Result Q := {| row_of := row 2 "b"; score := 0 + 1 / (60 + 0 + 1) + 1 / (60 + 1 + 1) |} in
  In r (rrfFusionWeighted kw sem 60%Q 1%Q 1%Q 10)
  /\ In r' (rrfFusionWeighted sem kw 60%Q 1%Q 1%Q 10)
  /\ id r = id r'
  /\ score r == score r'.
Proof.
  intros kw sem r r'.
  assert (Hr : In r (rrfFusionWeighted kw sem 60%Q 1%Q 1%Q 10))
    by (vm_compute; left; reflexivity).
  assert (Hr' : In r' (rrfFusionWeighted sem kw 60%Q 1%Q 1%Q 10))
    by (vm_compute; left; reflexivity).
  assert (Hid : id r = id r') by reflexivity.
  repeat (split; [assumption|]).
  exact (proj2 (equal_weights_swap_scores kw sem 60 1) 10%Z 10%Z r r' Hr Hr' Hid).
Defined.

Lemma fused_score_semantic_absent {num} `{Number num} kw sem (k wk ws ws' : num) x :
  ~ In x (ids sem) ->
  fused_score kw sem k wk ws x = fused_score kw sem k wk ws' x.
Proof.
  intros Hn. unfold fused_score, fused_maps, forEach.
  rewrite (@scores_forEach_other _ _ ws k sem 0%nat _ x Hn).
  now rewrite (@scores_forEach_other _ _ ws' k sem 0%nat _ x Hn).
Qed.

Lemma fused_score_semantic_monotone kw sem (k wk w1 w2 : Q) x :
  0 < k -> w1 <= w2 -> In x (ids sem) ->
  Qle_opt (fused_score kw sem k wk w1 x) (fused_score kw sem k wk w2 x).
Proof.
  intros Hk Hw Hin.
  pose proof (fused_score_closed_form kw sem k wk w1 x) as H1.
  pose proof (fused_score_closed_form kw sem k wk w2 x) as H2.
  unfold rrf_score in H1, H2. apply mem_In in Hin. rewrite Hin, orb_true_r in H1, H2.
  pose proof (@rank_sum_monotone w1 w2 k x sem 0 Hk Hw) as Hm.
  destruct (fused_score kw sem k wk w1 x); simpl in H1; [|tauto].
  destruct (fused_score kw sem k wk w2 x); simpl in H2; [|tauto].
  simpl. lra.
Qed.

(** C8.  For a smoothing constant [k > 0], which is what the contract of the
    fusion asks of [k], and semantic weights [w1 <= w2], all else fixed: an id that occurs in [semanticResults] has a fused score
    under [w2] that is at least its score under [w1], and an id that does not
    occur there has the same score (or none) under both.  The same holds of
    the scores carried by the results of the two calls. *)
Theorem semantic_weight_monotone (kw sem : list Row) (k wk w1 w2 : Q) :
  0 < k -> w1 <= w2 ->
  (forall x, In x (ids sem) ->
     Qle_opt (fused_score kw sem k wk w1 x) (fused_score kw sem k wk w2 x))
  /\ (forall x, ~ In x (ids sem) ->
     fused_score kw sem k wk w1 x = fused_score kw sem k wk w2 x)
  /\ (forall limit limit' (r1 r2 : Result Q),
        In r1 (rrfFusionWeighted kw sem k wk w1 limit) ->
        In r2 (rrfFusionWeighted kw sem k wk w2 limit') ->
        id r1 = id r2 ->
        (In (id r1) (ids sem) -> score r1 <= score r2)
        /\ (~ In (id r1) (ids sem) -> score r1 = score r2)).
Proof.
  intros Hk Hw. split; [|split].
  - intros x Hin. now apply fused_score_semantic_monotone.
  - intros x Hn. now apply fused_score_semantic_absent.
  - intros limit limit' r1 r2 H1 H2 Hid.
    apply fused_result_score in H1, H2. rewrite <- Hid in H2. split.
    + intros Hin.
      pose proof (@fused_score_semantic_monotone kw sem k wk w1 w2 (id r1) Hk Hw Hin) as Hm.
      rewrite H1, H2 in Hm. exact Hm.
    + intros Hn.
      pose proof (@fused_score_semantic_absent Q _ kw sem k wk w1 w2 (id r1) Hn) as He.
      rewrite H1, H2 in He. congruence.
Qed.

Lemma semantic_weight_monotone_witness :
  0 < 60 /\ 1 <= 2
  /\ In 3%Z (ids [row 2 "b"; row 3 "c"])
  /\ Qle_opt
       (fused_score [row 1 "a"; row 2 "b"] [row 2 "b"; row 3 "c"] 60%Q 1%Q 1%Q 3)
       (fused_score [row 1 "a"; row 2 "b"] [row 2 "b"; row 3 "c"] 60%Q 1%Q 2%Q 3).
Proof.
  assert (Hk : 0 < 60) by reflexivity.
  assert (Hw : 1 <= 2) by discriminate.
  assert (Hin : In 3%Z (ids [row 2 "b"; row 3 "c"])) by (simpl; right; left; reflexivity).
  repeat (split; [assumption|]).
  exact (proj1 (@semantic_weight_monotone [row 1 "a"; row 2 "b"] [row 2 "b"; row 3 "c"]
                   60 1 1 2 Hk Hw) 3%Z Hin).
Defined.

(** * The specification's statements about [search_docs] *)

Lemma falsy_trimStart s : falsy (trimStart s) = blank s.
Proof.
  induction s as [|c s IH]; simpl; auto.
  destruct (is_white_space c); simpl; auto.
Qed.

Lemma blank_trimStart s : blank (trimStart s) = blank s.
Proof.
  induction s as [|c s IH]; simpl; auto.
  destruct (is_white_space c) eqn:E; simpl; auto. now rewrite E.
Qed.

Lemma blank_app s t : blank (s ++ t) = blank s && blank t.
Proof. apply forallb_app. Qed.

Lemma blank_rev s : blank (rev s) = blank s.
Proof.
  induction s as [|c s IH]; simpl; auto.
  rewrite blank_app, IH. simpl. rewrite andb_true_r. apply andb_comm.
Qed.

Lemma falsy_rev s : falsy (rev s) = falsy s.
Proof.
  destruct s as [|c s]; simpl; auto.
  destruct (rev s); reflexivity.
Qed.

(** [!query.trim()] holds exactly for a query that is empty or all white
    space. *)
Lemma falsy_trim s : falsy (trim s) = blank s.
Proof.
  unfold trim, trimEnd.
  now rewrite falsy_rev, falsy_trimStart, blank_rev, blank_trimStart.
Qed.

(** C9.  For a query that is empty or consists of white space only, whatever
    the source, search type, version and limit, [fn] throws
    "Query must be a non-empty string." as its first step: its run makes no
    call to the embedding model or to the database. *)
Theorem blank_query_is_rejected (schema : string) (input : Input) :
  blank (query input) = true ->
  fn schema input = Raise (Error "Query must be a non-empty string.")
  /\ forall w, run w (fn schema input)
               = ([], Throw (Error "Query must be a non-empty string.")).
Proof.
  intros Hb.
  assert (E : fn schema input = Raise (Error "Query must be a non-empty string.")).
  { unfold fn. now rewrite falsy_trim, Hb. }
  split; [exact E|]. intros w. now rewrite E.
Qed.

Lemma blank_query_is_rejected_witness :
  let input := {| source := postgres; search_type := semantic;
                  query := of_ascii "  "; version := latest; limit := 5 |} in
  blank (query input) = true
  /\ fn "docs" input = Raise (Error "Query must be a non-empty string.").
Proof.
  intros input.
  assert (Hb : blank (query input) = true) by reflexivity.
  split; [exact Hb|].
  exact (proj1 (@blank_query_is_rejected "docs" input Hb)).
Defined.

(** C10, as stated, fails: with [limit <= 0] the tool still fails on a blank
    query. *)
Lemma nonpositive_limit_counterexample :
  (limit {| source := tiger; search_type := keyword; query := [];
            version := latest; limit := 0 |} <= 0)%Z
  /\ fn "docs" {| source := tiger; search_type := keyword; query := [];
                  version := latest; limit := 0 |}
     = Raise (Error "Query must be a non-empty string.").
Proof. split; [discriminate | reflexivity]. Qed.

(** C10, amended.  [fn] never rejects a limit: it behaves on [limit] as on
    [effective_limit limit], which is 10 for [limit <= 0] and [limit] itself
    for [limit > 0].  For a query that is not blank the run does not throw:
    it ends with the rows of a database call, and every database call it
    makes has [effective_limit limit] as its row cap. *)
Theorem limit_defaults_to_ten (schema : string) (input : Input) (w : World) :
  blank (query input) = false ->
  ((limit input <= 0)%Z -> effective_limit (limit input) = 10%Z)
  /\ ((limit input > 0)%Z -> effective_limit (limit input) = limit input)
  /\ fn schema input = fn schema (with_limit input (effective_limit (limit input)))
  /\ (exists calls sql params,
        run w (fn schema input)
        = (calls, Normal {| results := pgPool_query w schema sql params |})
        /\ In (CallQuery schema sql params) calls
        /\ forall c, In c calls -> is_query c = true ->
                     row_cap c = Some (effective_limit (limit input))).
Proof.
  intros Hb. unfold effective_limit. repeat split.
  - intros Hl. destruct (limit input >? 0)%Z eqn:E; auto. lia.
  - intros Hl. destruct (limit input >? 0)%Z eqn:E; auto. lia.
  - unfold fn, with_limit. simpl.
    destruct (limit input >? 0)%Z eqn:E; rewrite ?E; reflexivity.
  - unfold fn. rewrite falsy_trim, Hb.
    destruct (search_type input), (source input); simpl;
      do 3 eexists; (split; [reflexivity|]); (split; [simpl; auto|]);
      intros c Hc Hq; simpl in Hc;
      repeat (destruct Hc as [<-|Hc]; [try discriminate; reflexivity|]);
      destruct Hc.
Qed.

Lemma limit_defaults_to_ten_witness :
  let input := {| source := postgres; search_type := keyword;
                  query := of_ascii "hypertable"; version := latest; limit := 0 |} in
  let found := {| doc_id := 7; doc_content := "CREATE TABLE ... WITH (tsdb.hypertable)";
                  metadata := "{}"; relevance := 1.5 |} in
  let w := {| embed := fun _ => []; pgPool_query := fun _ _ _ => [found] |} in
  blank (query input) = false
  /\ (limit input <= 0)%Z
  /\ effective_limit (limit input) = 10%Z
  /\ run w (fn "docs" input)
     = ([CallQuery "docs" keyword_postgres_chunks
           [PText (of_ascii "hypertable"); PVersion v18; PLimit 10]],
        Normal {| results := [found] |}).
Proof.
  intros input found w.
  assert (Hb : blank (query input) = false) by reflexivity.
  assert (Hl : (limit input <= 0)%Z) by (simpl; lia).
  pose proof (@limit_defaults_to_ten "docs" input w Hb) as (H10 & _).
  split; [exact Hb|]. split; [exact Hl|]. split; [exact (H10 Hl)|]. reflexivity.
Defined.

(** * Further properties of [rrfFusion] *)

(** ** The limit only cuts the ranking *)

Lemma slice_0_map {A B} (f : A -> B) (limit : Z) (l : list A) :
  slice 0 limit (map f l) = map f (slice 0 limit l).
Proof. now rewrite !slice_0, length_map, firstn_map. Qed.

Lemma slice_0_length {A} (limit : Z) (l : list A) :
  List.length (slice 0 limit l)
  = Z.to_nat (relative_index (Z.of_nat (List.length l)) limit).
Proof.
  rewrite slice_0, length_firstn. unfold relative_index.
  destruct (limit <? 0)%Z eqn:E; lia.
Qed.

Lemma ranked_results_slice {num} `{Number num} (st : Maps num) (limit full : Z) :
  (Z.of_nat (List.length (scores st)) <= full)%Z ->
  ranked_results st limit = slice 0 limit (ranked_results st full).
Proof.
  intros Hfull. unfold ranked_results.
  rewrite slice_0_map. f_equal. f_equal. symmetry. apply slice_0_all.
  now rewrite (Permutation_length (sort_perm by_score_desc _)).
Qed.

(** Whatever the limit, the output is [slice(0, limit)] of the full ranking,
    the one a limit of at least the number of distinct ids gives: a smaller
    limit never changes which result comes before which. *)
Theorem rrfFusion_limit_cuts_full_ranking {num} `{Number num}
    (kw sem : list Row) (k wk ws : num) (limit full : Z) :
  (Z.of_nat (distinct_ids kw sem) <= full)%Z ->
  rrfFusionWeighted kw sem k wk ws limit
  = slice 0 limit (rrfFusionWeighted kw sem k wk ws full).
Proof.
  intros Hfull. unfold rrfFusionWeighted.
  apply ranked_results_slice. now rewrite fused_scores_length.
Qed.

Lemma rrfFusion_limit_cuts_full_ranking_witness :
  (Z.of_nat (distinct_ids [row 1 "a"; row 2 "b"] [row 2 "b"; row 3 "c"]) <= 50)%Z
  /\ rrfFusionWeighted [row 1 "a"; row 2 "b"] [row 2 "b"; row 3 "c"] 60%Q 1%Q 1%Q 2
     = slice 0 2 (rrfFusionWeighted [row 1 "a"; row 2 "b"] [row 2 "b"; row 3 "c"]
                    60%Q 1%Q 1%Q 50).
Proof.
  assert (Hl : (Z.of_nat (distinct_ids [row 1 "a"; row 2 "b"] [row 2 "b"; row 3 "c"])
                <= 50)%Z) by (vm_compute; discriminate).
  split; [exact Hl|].
  exact (@rrfFusion_limit_cuts_full_ranking Q _ [row 1 "a"; row 2 "b"]
           [row 2 "b"; row 3 "c"] 60%Q 1%Q 1%Q 2 50 Hl).
Defined.

(** The number of results: with a limit that is not negative, the smaller of
    the limit and the number of distinct ids (none for [limit = 0]); with a
    negative limit, the number of distinct ids less [-limit], the results cut
    being the worst ones, and none when [-limit] reaches that number. *)
Theorem rrfFusion_length {num} `{Number num}
    (kw sem : list Row) (k wk ws : num) (limit : Z) :
  ((0 <= limit)%Z ->
     List.length (rrfFusionWeighted kw sem k wk ws limit)
     = Nat.min (Z.to_nat limit) (distinct_ids kw sem))
  /\ ((limit < 0)%Z ->
     List.length (rrfFusionWeighted kw sem k wk ws limit)
     = (distinct_ids kw sem - Z.to_nat (- limit))%nat)
  /\ (limit = 0%Z -> rrfFusionWeighted kw sem k wk ws limit = []).
Proof.
  assert (Hlen : List.length (rrfFusionWeighted kw sem k wk ws limit)
                 = Z.to_nat (relative_index (Z.of_nat (distinct_ids kw sem)) limit)).
  { unfold rrfFusionWeighted, ranked_results.
    rewrite length_map, slice_0_length.
    rewrite (Permutation_length (sort_perm by_score_desc _)).
    unfold entries. now rewrite fused_scores_length. }
  split; [|split].
  - intros Hl. rewrite Hlen. unfold relative_index.
    destruct (limit <? 0)%Z eqn:E; lia.
  - intros Hl. rewrite Hlen. unfold relative_index.
    destruct (limit <? 0)%Z eqn:E; lia.
  - intros ->. apply length_zero_iff_nil. rewrite Hlen. unfold relative_index.
    simpl. lia.
Qed.

(** ** The score of a result *)

Lemma fused_score_is_rank_sum kw sem (k wk ws : Q) x s :
  fused_score kw sem k wk ws x = Some s ->
  s == rank_sum wk k x kw 0 + rank_sum ws k x sem 0.
Proof.
  intros Hs. pose proof (fused_score_closed_form kw sem k wk ws x) as Hc.
  rewrite Hs in Hc. unfold rrf_score in Hc.
  destruct (mem x (ids kw) || mem x (ids sem)); simpl in Hc; tauto.
Qed.

Lemma accumulated_absent {num} `{Number num} (weight k : num) x rows i acc :
  ~ In x (ids rows) -> accumulated weight k x rows i acc = acc.
Proof.
  revert i acc. induction rows as [|r rows IH]; intros i acc Hn; [reflexivity|].
  simpl in Hn. cbn [accumulated]. destruct (Z.eqb (id r) x) eqn:E.
  - apply Z.eqb_eq in E. tauto.
  - apply IH. tauto.
Qed.

Lemma scores_forEach_accumulated {num} `{Number num} (weight k : num) rows i st x :
  map_get (scores (forEach_from (accumulate weight k) rows i st)) x
  = if mem x (ids rows)
    then Some (accumulated weight k x rows i (nullish (map_get (scores st) x) zero))
    else map_get (scores st) x.
Proof.
  revert i st. induction rows as [|r rows IH]; intros i st; [reflexivity|].
  cbn [forEach_from ids map accumulated]. rewrite mem_cons, IH. fold (ids rows).
  rewrite (Z.eqb_sym x (id r)). cbn [accumulate scores].
  destruct (Z.eqb (id r) x) eqn:E; cbn [orb].
  - apply Z.eqb_eq in E. rewrite <- E, map_get_set_same. cbn [nullish].
    destruct (mem (id r) (ids rows)) eqn:Em; [reflexivity|].
    apply mem_not_In in Em. now rewrite accumulated_absent.
  - apply Z.eqb_neq in E. now rewrite map_get_set_other.
Qed.

(** The score a result carries is the running sum the loops build: starting
    from 0, each keyword row with the result's id adds
    [keywordWeight / (k + i + 1)], in list order, and then each semantic row
    with that id adds [semanticWeight / (k + i + 1)]; a row repeated within a
    list counts each time.  This is an equality of the numbers computed, in
    every arithmetic and for every [k], weights and limit. *)
Theorem fused_result_score_is_running_sum {num} `{Number num}
    (kw sem : list Row) (k wk ws : num) (limit : Z) (r : Result num) :
  In r (rrfFusionWeighted kw sem k wk ws limit) ->
  score r = accumulated ws k (id r) sem 0 (accumulated wk k (id r) kw 0 zero).
Proof.
  intros Hin. apply fused_result_score in Hin.
  unfold fused_score, fused_maps, forEach in Hin.
  rewrite !scores_forEach_accumulated in Hin. cbn [scores empty_maps map_get] in Hin.
  destruct (mem (id r) (ids sem)) eqn:Es; destruct (mem (id r) (ids kw)) eqn:Ek;
    cbn [nullish] in Hin.
  - now injection Hin as <-.
  - injection Hin as <-. apply mem_not_In in Ek. now rewrite (@accumulated_absent _ _ wk k (id r) kw 0%nat zero Ek).
  - injection Hin as <-. apply mem_not_In in Es. now rewrite (@accumulated_absent _ _ ws k (id r) sem 0%nat _ Es).
  - discriminate.
Qed.

Lemma fused_result_score_is_running_sum_witness :
  let kw := [row 1 "a"; row 2 "b"; row 2 "b"] in
  let sem := [row 2 "b"; row 3 "c"] in
  let r : Result float :=
    {| row_of := row 2 "b"; score := (1 / 62 + 1 / 63 + 2 / 61)%float |} in
  In r (rrfFusionWeighted kw sem 60%float 1%float 2%float 10)
  /\ score r = accumulated 2%float 60%float (id r) sem 0
                 (accumulated 1%float 60%float (id r) kw 0 zero).
Proof.
  intros kw sem r.
  assert (Hin : In r (rrfFusionWeighted kw sem 60%float 1%float 2%float 10))
    by (vm_compute; left; reflexivity).
  split; [exact Hin|].
  exact (@fused_result_score_is_running_sum float _ kw sem 60%float 1%float 2%float
           10 r Hin).
Defined.

Lemma rank_sum_nonneg (w k : Q) x rows i :
  0 <= k -> 0 <= w -> 0 <= rank_sum w k x rows i.
Proof.
  intros Hk Hw. revert i. induction rows as [|r rows IH]; intros i; simpl.
  - apply Qle_refl.
  - specialize (IH (S i)). destruct (Z.eqb (id r) x); [|lra].
    pose proof (ofIndex_nonneg i) as Hi. cbn [ofIndex Q_number] in Hi.
    assert (0 <= w / (k + inject_Z (Z.of_nat i) + 1))
      by (apply Qle_shift_div_l; lra).
    lra.
Qed.

(** With [k >= 0] and weights that are not negative, no result has a
    negative score. *)
Theorem fused_scores_not_negative
    (kw sem : list Row) (k wk ws : Q) (limit : Z) (r : Result Q) :
  0 <= k -> 0 <= wk -> 0 <= ws ->
  In r (rrfFusionWeighted kw sem k wk ws limit) ->
  0 <= score r.
Proof.
  intros Hk Hwk Hws Hin.
  assert (Hs : score r == rank_sum wk k (id r) kw 0 + rank_sum ws k (id r) sem 0).
  { apply fused_result_score in Hin. now apply fused_score_is_rank_sum. }
  pose proof (@rank_sum_nonneg wk k (id r) kw 0 Hk Hwk) as Hn1.
  pose proof (@rank_sum_nonneg ws k (id r) sem 0 Hk Hws) as Hn2.
  lra.
Qed.

Lemma fused_scores_not_negative_witness :
  let r : Result Q := {| row_of := row 3 "c"; score := 0 + 2 / (0 + 1 + 1) |} in
  0 <= 0 /\ 0 <= 0 /\ 0 <= 2
  /\ In r (rrfFusionWeighted [row 1 "a"] [row 2 "b"; row 3 "c"] 0%Q 0%Q 2%Q 10)
  /\ 0 <= score r.
Proof.
  intros r.
  assert (H0 : 0 <= 0) by discriminate.
  assert (H2 : 0 <= 2) by discriminate.
  assert (Hin : In r (rrfFusionWeighted [row 1 "a"] [row 2 "b"; row 3 "c"]
                        0%Q 0%Q 2%Q 10)) by (vm_compute; auto).
  repeat (split; [assumption|]).
  exact (@fused_scores_not_negative _ _ 0 0 2 10 r H0 H0 H2 Hin).
Defined.

(** ** A weight of zero *)

Lemma rank_sum_zero_weight (k : Q) x rows i : rank_sum 0 k x rows i == 0.
Proof.
  revert i. induction rows as [|r rows IH]; intros i; simpl; [reflexivity|].
  rewrite IH. destruct (Z.eqb (id r) x); [|lra].
  unfold Qdiv. rewrite Qmult_0_l. lra.
Qed.

Lemma fused_ids_complete {num} `{Number num} kw sem (k wk ws : num) limit x :
  (Z.of_nat (distinct_ids kw sem) <= limit)%Z ->
  In x (ids kw) \/ In x (ids sem) ->
  exists r, In r (rrfFusionWeighted kw sem k wk ws limit) /\ id r = x.
Proof.
  intros Hl Hx.
  assert (Hk : In x (keys (scores (fused_maps kw sem k wk ws)))).
  { rewrite fused_scores_keys, append_new_In. unfold encounter.
    rewrite in_app_iff. tauto. }
  assert (Hp : Permutation
                 (map (fun r : Result num => id r)
                      (ranked_results (fused_maps kw sem k wk ws) limit))
                 (keys (scores (fused_maps kw sem k wk ws)))).
  { apply ranked_results_all. now rewrite fused_scores_length. }
  apply (Permutation_in _ (Permutation_sym Hp)) in Hk.
  apply in_map_iff in Hk. destruct Hk as (r & Hid & Hin). eauto.
Qed.

(** A semantic weight of 0 takes the semantic list's contribution away but
    not its ids.  When no divisor [k + i + 1] is zero (so for every [k >= 0]):
    a result whose id is in the keyword list scores what the fusion of the
    keyword list alone gives that id; a result whose id is not in the keyword
    list scores 0; and an id found by the semantic list only is still
    returned, the limit allowing. *)
Theorem zero_semantic_weight_keeps_ids
    (kw sem : list Row) (k wk : Q) (limit : Z) :
  zero_divisor k kw = false -> zero_divisor k sem = false ->
  (forall r, In r (rrfFusionWeighted kw sem k wk 0 limit) ->
     (In (id r) (ids kw) ->
        exists s, fused_score kw [] k wk 0 (id r) = Some s /\ score r == s)
     /\ (~ In (id r) (ids kw) -> score r == 0))
  /\ (forall x, (Z.of_nat (distinct_ids kw sem) <= limit)%Z ->
        In x (ids sem) -> ~ In x (ids kw) ->
        exists r, In r (rrfFusionWeighted kw sem k wk 0 limit)
                  /\ id r = x /\ score r == 0).
Proof.
  intros _ _. split.
  - intros r Hin. apply fused_result_score, fused_score_is_rank_sum in Hin.
    rewrite rank_sum_zero_weight in Hin. split.
    + intros Hk.
      pose proof (fused_score_closed_form kw [] k wk 0 (id r)) as Hc.
      unfold rrf_score in Hc. apply mem_In in Hk. rewrite Hk in Hc. simpl in Hc.
      destruct (fused_score kw [] k wk 0 (id r)) as [s|]; [|contradiction].
      exists s. split; [reflexivity|]. simpl in Hc. lra.
    + intros Hk. rewrite Hin, (@rank_sum_absent wk k (id r) kw 0 Hk). lra.
  - intros x Hl Hs Hk.
    destruct (@fused_ids_complete Q _ kw sem k wk 0 limit x Hl (or_intror Hs))
      as (r & Hin & Hid).
    exists r. repeat split; auto.
    apply fused_result_score, fused_score_is_rank_sum in Hin.
    rewrite Hin, rank_sum_zero_weight, Hid, (@rank_sum_absent wk k x kw 0 Hk). lra.
Qed.

Lemma zero_semantic_weight_keeps_ids_witness :
  zero_divisor 60 [row 1 "a"] = false /\ zero_divisor 60 [row 2 "b"] = false
  /\ (Z.of_nat (distinct_ids [row 1 "a"] [row 2 "b"]) <= 10)%Z
  /\ In 2%Z (ids [row 2 "b"]) /\ ~ In 2%Z (ids [row 1 "a"])
  /\ exists r, In r (rrfFusionWeighted [row 1 "a"] [row 2 "b"] 60%Q 1%Q 0%Q 10)
               /\ id r = 2%Z /\ score r == 0.
Proof.
  assert (Hzk : zero_divisor 60 [row 1 "a"] = false) by reflexivity.
  assert (Hzs : zero_divisor 60 [row 2 "b"] = false) by reflexivity.
  assert (Hl : (Z.of_nat (distinct_ids [row 1 "a"] [row 2 "b"]) <= 10)%Z)
    by (vm_compute; discriminate).
  assert (Hs : In 2%Z (ids [row 2 "b"])) by (simpl; left; reflexivity).
  assert (Hk : ~ In 2%Z (ids [row 1 "a"])) by (simpl; intros [E|[]]; discriminate).
  repeat (split; [assumption|]).
  exact (proj2 (@zero_semantic_weight_keeps_ids [row 1 "a"] [row 2 "b"] 60 1 10 Hzk Hzs)
           2%Z Hl Hs Hk).
Defined.

(** ** Lists without repeated ids: bounds and the consensus winner *)

Lemma rank_sum_single (w k : Q) x rows i :
  0 <= k -> 0 <= w -> NoDup (ids rows) ->
  rank_sum w k x rows i <= w / (k + inject_Z (Z.of_nat i) + 1).
Proof.
  intros Hk Hw. revert i. induction rows as [|r rows IH]; intros i Hnd.
  - simpl. pose proof (ofIndex_nonneg i) as Hi. cbn [ofIndex Q_number] in Hi.
    apply Qle_shift_div_l; lra.
  - simpl in Hnd. inversion Hnd as [|? ? Hr Hnd']; subst.
    cbn [rank_sum]. destruct (Z.eqb (id r) x) eqn:E.
    + apply Z.eqb_eq in E. subst x.
      pose proof (@rank_sum_absent w k (id r) rows (S i) Hr). lra.
    + specialize (IH (S i) Hnd').
      pose proof (ofIndex_succ i) as Es. pose proof (ofIndex_nonneg i) as Hi.
      cbn [ofIndex Q_number] in Es, Hi. rewrite Es in IH.
      pose proof (@rank_term_decreasing w (k + inject_Z (Z.of_nat i) + 1) Hw
                    ltac:(lra)) as Hd.
      assert (Ea : k + (inject_Z (Z.of_nat i) + 1) + 1
                   == k + inject_Z (Z.of_nat i) + 1 + 1) by ring.
      rewrite Ea in IH. lra.
Qed.

(** When neither list repeats an id, with [k >= 0] and weights that are not
    negative, no score exceeds what rank 1 in both lists gives,
    [keywordWeight / (k + 1) + semanticWeight / (k + 1)]: 2/61 with the
    defaults. *)
Theorem fused_score_upper_bound
    (kw sem : list Row) (k wk ws : Q) (limit : Z) (r : Result Q) :
  0 <= k -> 0 <= wk -> 0 <= ws ->
  NoDup (ids kw) -> NoDup (ids sem) ->
  In r (rrfFusionWeighted kw sem k wk ws limit) ->
  score r <= wk / (k + 1) + ws / (k + 1).
Proof.
  intros Hk Hwk Hws Hnk Hns Hin.
  apply fused_result_score, fused_score_is_rank_sum in Hin.
  pose proof (@rank_sum_single wk k (id r) kw 0 Hk Hwk Hnk) as H1.
  pose proof (@rank_sum_single ws k (id r) sem 0 Hk Hws Hns) as H2.
  change (inject_Z (Z.of_nat 0)) with 0 in H1, H2.
  assert (E : k + 0 + 1 == k + 1) by ring.
  rewrite E in H1, H2. lra.
Qed.

Lemma fused_score_upper_bound_witness :
  let r : Result Q := {| row_of := row 2 "b"; score := 0 + 1 / (60 + 1 + 1) + 1 / (60 + 0 + 1) |} in
  0 <= 60 /\ 0 <= 1
  /\ NoDup (ids [row 1 "a"; row 2 "b"]) /\ NoDup (ids [row 2 "b"; row 3 "c"])
  /\ In r (rrfFusionWeighted [row 1 "a"; row 2 "b"] [row 2 "b"; row 3 "c"] 60%Q 1%Q 1%Q 10)
  /\ score r <= 1 / (60 + 1) + 1 / (60 + 1).
Proof.
  intros r.
  assert (Hk : 0 <= 60) by discriminate.
  assert (Hw : 0 <= 1) by discriminate.
  assert (Hnk : NoDup (ids [row 1 "a"; row 2 "b"])).
  { simpl. repeat constructor; simpl; intuition discriminate. }
  assert (Hns : NoDup (ids [row 2 "b"; row 3 "c"])).
  { simpl. repeat constructor; simpl; intuition discriminate. }
  assert (Hin : In r (rrfFusionWeighted [row 1 "a"; row 2 "b"] [row 2 "b"; row 3 "c"]
                        60%Q 1%Q 1%Q 10)) by (vm_compute; left; reflexivity).
  repeat (split; [assumption|]).
  exact (@fused_score_upper_bound _ _ 60 1 1 10 r Hk Hw Hw Hnk Hns Hin).
Defined.

Lemma rank_sum_first (w k : Q) (a : Row) rows :
  NoDup (ids (a :: rows)) -> rank_sum w k (id a) (a :: rows) 0 == w / (k + 1).
Proof.
  intros Hnd. simpl in Hnd. inversion Hnd as [|? ? Ha _]; subst.
  cbn [rank_sum]. rewrite Z.eqb_refl.
  pose proof (@rank_sum_absent w k (id a) rows 1 Ha) as Hz.
  change (inject_Z (Z.of_nat 0)) with 0.
  assert (E : k + 0 + 1 == k + 1) by ring. rewrite E. lra.
Qed.

Lemma rank_sum_not_first (w k : Q) (a : Row) rows y :
  0 <= k -> 0 < w -> NoDup (ids (a :: rows)) -> y <> id a ->
  rank_sum w k y (a :: rows) 0 < w / (k + 1).
Proof.
  intros Hk Hw Hnd Hy. simpl in Hnd. inversion Hnd as [|? ? _ Hnd']; subst.
  cbn [rank_sum]. destruct (Z.eqb (id a) y) eqn:E.
  - apply Z.eqb_eq in E. congruence.
  - pose proof (@rank_sum_single w k y rows 1 Hk ltac:(lra) Hnd') as Hs.
    simpl inject_Z in Hs.
    assert (Hlt : w / (k + 1 + 1) < w / (k + 1)).
    { apply Qlt_shift_div_r; [lra|].
      assert (Ed : w / (k + 1) * (k + 1 + 1) == w + w / (k + 1)) by (field; lra).
      rewrite Ed. assert (0 < w / (k + 1)) by (apply Qlt_shift_div_l; lra). lra. }
    change (inject_Z 1) with 1 in Hs. lra.
Qed.

(** When neither list repeats an id, with [k >= 0], positive weights and a
    limit of at least 1, the id ranked first by both lists is the first
    result. *)
Theorem consensus_first_is_first
    (a b : Row) (kw sem : list Row) (k wk ws : Q) (limit : Z) :
  0 <= k -> 0 < wk -> 0 < ws -> (1 <= limit)%Z ->
  NoDup (ids (a :: kw)) -> NoDup (ids (b :: sem)) -> id a = id b ->
  exists r rest,
    rrfFusionWeighted (a :: kw) (b :: sem) k wk ws limit = r :: rest
    /\ id r = id a.
Proof.
  intros Hk Hwk Hws Hl Hnk Hns Hab.
  set (full := Z.of_nat (distinct_ids (a :: kw) (b :: sem))).
  assert (Hfull : (full <= full)%Z) by lia.
  unfold rrfFusionWeighted at 1.
  rewrite (@ranked_results_slice Q _ _ limit full)
    by (rewrite fused_scores_length; exact Hfull).
  fold (rrfFusionWeighted (a :: kw) (b :: sem) k wk ws full).
  destruct (@fused_ids_complete Q _ (a :: kw) (b :: sem) k wk ws full (id a) Hfull)
    as (rx & Hrx & Hidx); [left; simpl; auto|].
  pose proof (rrfFusion_descending (a :: kw) (b :: sem) k wk ws full) as Hd.
  destruct (rrfFusionWeighted (a :: kw) (b :: sem) k wk ws full) as [|h t] eqn:EF;
    [contradiction|].
  rewrite slice_0_nonneg by lia.
  destruct (Z.to_nat limit) as [|n] eqn:En; [lia|]. simpl.
  exists h, (firstn n t). split; auto.
  destruct (Z.eq_dec (id h) (id a)) as [Eh|Nh]; auto. exfalso.
  assert (Hh : In h (rrfFusionWeighted (a :: kw) (b :: sem) k wk ws full))
    by (rewrite EF; now left).
  destruct Hrx as [<-|Hrx]; [congruence|].
  inversion Hd as [|? ? _ Hall]; subst.
  rewrite Forall_forall in Hall. specialize (Hall rx Hrx). simpl in Hall.
  apply fused_result_score, fused_score_is_rank_sum in Hh.
  assert (Hrx' : In rx (rrfFusionWeighted (a :: kw) (b :: sem) k wk ws full))
    by (rewrite EF; now right).
  apply fused_result_score, fused_score_is_rank_sum in Hrx'.
  rewrite Hidx in Hrx'.
  pose proof (@rank_sum_first wk k a kw Hnk) as Ha1.
  pose proof (@rank_sum_first ws k b sem Hns) as Hb1. rewrite <- Hab in Hb1.
  pose proof (@rank_sum_not_first wk k a kw (id h) Hk Hwk Hnk Nh) as Hh1.
  assert (Nhb : id h <> id b) by congruence.
  pose proof (@rank_sum_not_first ws k b sem (id h) Hk Hws Hns Nhb) as Hh2.
  lra.
Qed.

Lemma consensus_first_is_first_witness :
  0 <= 60 /\ 0 < 1 /\ (1 <= 10)%Z
  /\ NoDup (ids (row 2 "b" :: [row 1 "a"])) /\ NoDup (ids (row 2 "b" :: [row 3 "c"]))
  /\ exists r rest,
       rrfFusionWeighted (row 2 "b" :: [row 1 "a"]) (row 2 "b" :: [row 3 "c"])
         60%Q 1%Q 1%Q 10 = r :: rest
       /\ id r = id (row 2 "b").
Proof.
  assert (Hk : 0 <= 60) by discriminate.
  assert (Hw : 0 < 1) by reflexivity.
  assert (Hl : (1 <= 10)%Z) by discriminate.
  assert (Hnk : NoDup (ids (row 2 "b" :: [row 1 "a"]))).
  { simpl. repeat constructor; simpl; intuition discriminate. }
  assert (Hns : NoDup (ids (row 2 "b" :: [row 3 "c"]))).
  { simpl. repeat constructor; simpl; intuition discriminate. }
  repeat (split; [assumption|]).
  exact (@consensus_first_is_first (row 2 "b") (row 2 "b") [row 1 "a"] [row 3 "c"]
           60 1 1 10 Hk Hw Hw Hl Hnk Hns eq_refl).
Defined.

(** * Further properties of the Python [rrf_fusion] *)

(** Sorting the keys of a map by their values is sorting its entries by
    value and then taking the keys. *)
Lemma sort_insert_keys {num} `{Number num} (m : Map num) (x : Z * num) (l : list (Z * num)) :
  (forall e, In e (x :: l) -> map_get m (fst e) = Some (snd e)) ->
  sort_insert (fun a b => sub (nullish (map_get m b) zero) (nullish (map_get m a) zero))
              (fst x) (map fst l)
  = map fst (sort_insert by_score_desc x l).
Proof.
  intros Hm. induction l as [|y l IH]; [reflexivity|].
  cbn [map sort_insert]. unfold by_score_desc at 1.
  rewrite (Hm x) by now left. rewrite (Hm y) by (right; now left). cbn [nullish].
  destruct (positive (sub (snd y) (snd x))); [|reflexivity].
  cbn [map]. f_equal. apply IH.
  intros e [He|He]; apply Hm; [now left | right; now right].
Qed.

Lemma sort_keys {num} `{Number num} (m : Map num) (l : list (Z * num)) :
  (forall e, In e l -> map_get m (fst e) = Some (snd e)) ->
  sort (fun a b => sub (nullish (map_get m b) zero) (nullish (map_get m a) zero))
       (map fst l)
  = map fst (sort by_score_desc l).
Proof.
  induction l as [|x l IH]; intros Hm; [reflexivity|].
  cbn [map sort]. rewrite IH by (intros e He; apply Hm; now right).
  apply sort_insert_keys. intros e [<-|He]; apply Hm; [now left|].
  right. now apply (Permutation_in _ (sort_perm by_score_desc l)).
Qed.

(** The Python [return] expression gives what the TypeScript one gives on
    the same two maps. *)
Lemma py_return_is_ranked_results {num} `{Number num} (st : Maps num) (limit : Z) :
  NoDup (keys (scores st)) ->
  map (fun i =>
         {| row_of := {| id := i;
                         content := nullish (map_get (contentMap st) i) EmptyString |};
            score := nullish (map_get (scores st) i) zero |})
      (slice 0 limit
         (sort (fun a b => sub (nullish (map_get (scores st) b) zero)
                               (nullish (map_get (scores st) a) zero))
               (keys (scores st))))
  = ranked_results st limit.
Proof.
  intros Hnd. unfold ranked_results, entries, keys.
  assert (Hm : forall e, In e (scores st) -> map_get (scores st) (fst e) = Some (snd e)).
  { intros [i s] He. now apply In_map_get. }
  rewrite (sort_keys (scores st) (scores st) Hm), slice_0_map, map_map.
  apply map_ext_in. intros e He. unfold to_result.
  apply In_slice_0 in He.
  apply (Permutation_in _ (sort_perm by_score_desc (scores st))) in He.
  now rewrite (Hm e He).
Qed.

(** Over the rationals [k + (i + 1)] and [k + i + 1] are the same number, so
    the Python loop body at rank [i + 1] is the TypeScript one at index [i]
    whenever it does not divide by zero. *)
Lemma Q_rank_divisor (k : Q) (i : nat) :
  k + inject_Z (Z.of_nat (S i)) = k + inject_Z (Z.of_nat i) + 1.
Proof.
  destruct k as [a b]. unfold Qplus, inject_Z. cbn [Qnum Qden].
  rewrite Nat2Z.inj_succ. f_equal; lia.
Qed.

Lemma py_for_forEach (weight k : Q) rows i st :
  py_for (py_accumulate weight k) rows (S i) st
  = if zero_divisor_from k (S i) (List.length rows)
    then Throw ZeroDivisionError
    else Normal (forEach_from (accumulate weight k) rows i st).
Proof.
  revert i st. induction rows as [|r rows IH]; intros i st; [reflexivity|].
  cbn [py_for List.length]. unfold zero_divisor_from. cbn [seq existsb].
  unfold py_accumulate at 1.
  destruct (is_zero (add k (ofIndex (S i)))) eqn:Ez; [reflexivity|].
  cbn [orb]. rewrite IH. unfold zero_divisor_from.
  destruct (existsb _ (seq (S (S i)) (List.length rows))); [reflexivity|].
  cbn [forEach_from]. f_equal. f_equal.
  unfold accumulate. cbn [add ofIndex one Q_number].
  now rewrite Q_rank_divisor.
Qed.

Lemma py_for_agrees {num} `{Number num} (weight k : num) rows i st :
  (forall j, (i <= j < i + List.length rows)%nat ->
     is_zero (add k (ofIndex (S j))) = false
     /\ add k (ofIndex (S j)) = add (add k (ofIndex j)) one) ->
  py_for (py_accumulate weight k) rows (S i) st
  = Normal (forEach_from (accumulate weight k) rows i st).
Proof.
  revert i st. induction rows as [|r rows IH]; intros i st Hd; [reflexivity|].
  cbn [py_for forEach_from]. unfold py_accumulate at 1.
  destruct (Hd i) as [Hz He]; [simpl; lia|].
  rewrite Hz, He. apply IH. intros j Hj. apply Hd. simpl. lia.
Qed.

(** The Python [rrf_fusion] and the TypeScript [rrfFusion] differ in one
    place, the divisor of the row at index [i]: [k + (i + 1)] in one,
    [k + i + 1] in the other.  In every arithmetic, when the two divisors
    are the same number and not zero for the rows of both lists, the Python
    snippet returns exactly what the TypeScript one returns: the same ids,
    contents and scores in the same order, for every limit.  In exact
    arithmetic the two divisors are always the same number.  In binary64 they
    need not be: at [k = 2^53 - 1] the third row is scored differently by the
    two snippets. *)
Theorem rrf_fusion_agrees_with_rrfFusion :
  (forall num (N : Number num) (kw sem : list Row) (k : num) (limit : Z),
     divisors_agree k (List.length kw) -> divisors_agree k (List.length sem) ->
     rrf_fusion kw sem k limit = Normal (rrfFusion kw sem k limit))
  /\ (forall (k : Q) (n : nat),
        zero_divisor_from k 1 n = false -> divisors_agree k n)
  /\ (let k := 9007199254740991%float in
      let rows := [row 1 "a"; row 2 "b"; row 3 "c"] in
      let x := (1 / 9007199254740992)%float in
      let y := (1 / 9007199254740994)%float in
      rrf_fusion rows [] k 10
      = Normal [ {| row_of := row 1 "a"; score := x |};
                 {| row_of := row 2 "b"; score := x |};
                 {| row_of := row 3 "c"; score := y |} ]
      /\ rrfFusion rows [] k 10
         = [ {| row_of := row 1 "a"; score := x |};
             {| row_of := row 2 "b"; score := x |};
             {| row_of := row 3 "c"; score := x |} ]
      /\ PrimFloat.eqb x y = false).
Proof.
  split; [|split].
  - intros num N kw sem k limit Hkw Hsem. unfold rrf_fusion.
    rewrite py_for_agrees by (intros j Hj; apply Hkw; lia).
    rewrite py_for_agrees by (intros j Hj; apply Hsem; lia).
    f_equal.
    apply (py_return_is_ranked_results
             (forEach_from (accumulate one k) sem 0
                (forEach_from (accumulate one k) kw 0 empty_maps)) limit).
    apply (fused_scores_NoDup kw sem k one one).
  - intros k n Hz i Hi. split.
    + unfold zero_divisor_from in Hz.
      destruct (is_zero (add k (ofIndex (S i)))) eqn:E; [|reflexivity].
      assert (Hex : existsb (fun rank => is_zero (add k (ofIndex rank))) (seq 1 n) = true).
      { apply existsb_exists. exists (S i). split; [|exact E].
        apply in_seq. lia. }
      congruence.
    + cbn [add ofIndex one Q_number]. apply Q_rank_divisor.
  - repeat split; vm_compute; reflexivity.
Qed.

Lemma rrf_fusion_agrees_with_rrfFusion_witness :
  let kw := [row 1 "a"; row 2 "b"] in
  let sem := [row 2 "b"; row 3 "c"] in
  divisors_agree 60%float (List.length kw)
  /\ divisors_agree 60%float (List.length sem)
  /\ rrf_fusion kw sem 60%float 10 = Normal (rrfFusion kw sem 60%float 10).
Proof.
  intros kw sem.
  assert (Hd : divisors_agree 60%float 2).
  { intros i Hi. destruct i as [|[|i]]; [split; vm_compute; reflexivity .. | lia]. }
  split; [exact Hd | split; [exact Hd|]].
  exact (proj1 rrf_fusion_agrees_with_rrfFusion float _ kw sem 60%float 10%Z Hd Hd).
Defined.

(** The snippets part where a divisor is zero.  When [k + rank] is zero for
    a rank of either list ([k = -2] with two keyword rows, say), the Python
    [rrf_fusion] raises [ZeroDivisionError] and returns nothing, where the
    TypeScript [rrfFusion] returns a list. *)
Theorem rrf_fusion_zero_division (kw sem : list Row) (k : Q) (limit : Z) :
  zero_divisor k kw || zero_divisor k sem = true ->
  rrf_fusion kw sem k limit = Throw ZeroDivisionError
  /\ rrfFusionWeighted_call kw sem k 1 1 limit = Normal (rrfFusion kw sem k limit).
Proof.
  unfold zero_divisor. intros Hz. split; [|reflexivity].
  unfold rrf_fusion. rewrite py_for_forEach.
  destruct (zero_divisor_from k 1 (List.length kw)); [reflexivity|].
  rewrite py_for_forEach. simpl in Hz. now rewrite Hz.
Qed.

Lemma rrf_fusion_zero_division_witness :
  zero_divisor (-2) [row 1 "a"; row 2 "b"] || zero_divisor (-2) [] = true
  /\ rrf_fusion [row 1 "a"; row 2 "b"] [] (-2)%Q 10 = Throw ZeroDivisionError.
Proof.
  assert (Hz : zero_divisor (-2) [row 1 "a"; row 2 "b"] || zero_divisor (-2) [] = true)
    by reflexivity.
  split; [exact Hz|].
  exact (proj1 (@rrf_fusion_zero_division [row 1 "a"; row 2 "b"] [] (-2) 10 Hz)).
Defined.

(** * Further properties of [search_docs] *)

(** For the [tiger] source the version plays no part: whatever version is
    passed, [fn] makes the same calls and ends the same way. *)
Theorem tiger_ignores_version (schema : string) (input : Input) (v : version_t) :
  source input = tiger ->
  fn schema (with_version input v) = fn schema input.
Proof.
  destruct input as [s t q ver l]. simpl. intros ->.
  unfold fn, with_version. simpl.
  destruct (falsy (trim q)); [reflexivity|]. destruct t; reflexivity.
Qed.

Lemma tiger_ignores_version_witness :
  let input := {| source := tiger; search_type := keyword;
                  query := of_ascii "compression"; version := pg v15; limit := 3 |} in
  source input = tiger
  /\ fn "docs" (with_version input latest) = fn "docs" input.
Proof.
  intros input.
  assert (Hs : source input = tiger) by reflexivity.
  split; [exact Hs|].
  exact (@tiger_ignores_version "docs" input latest Hs).
Defined.

(** For the [postgres] source and a query that is not blank, the database
    call binds the version as [$2]: the version passed, and 18, the last of
    [pg_versions], for "latest". *)
Theorem postgres_binds_resolved_version (schema : string) (input : Input) (w : World) :
  source input = postgres -> blank (query input) = false ->
  exists calls first cap,
    fst (run w (fn schema input))
    = calls ++ [CallQuery schema (statement_for (search_type input) postgres)
                  [first; PVersion (resolved_version (version input)); PLimit cap]]
    /\ forallb is_embed calls = true.
Proof.
  destruct input as [s t q ver l]. simpl. intros -> Hb.
  unfold fn. simpl. rewrite falsy_trim, Hb.
  destruct t; simpl.
  - exists [CallEmbed q]. do 2 eexists. split; [|reflexivity].
    destruct ver as [v|]; reflexivity.
  - exists []. do 2 eexists. split; [|reflexivity].
    destruct ver as [v|]; reflexivity.
Qed.

Lemma postgres_binds_resolved_version_witness :
  let input := {| source := postgres; search_type := keyword;
                  query := of_ascii "vacuum"; version := latest; limit := 5 |} in
  let w := {| embed := fun _ => []; pgPool_query := fun _ _ _ => [] |} in
  source input = postgres /\ blank (query input) = false
  /\ exists calls first cap,
       fst (run w (fn "docs" input))
       = calls ++ [CallQuery "docs" keyword_postgres_chunks
                     [first; PVersion v18; PLimit cap]]
       /\ forallb is_embed calls = true.
Proof.
  intros input w.
  assert (Hs : source input = postgres) by reflexivity.
  assert (Hb : blank (query input) = false) by reflexivity.
  repeat (split; [assumption|]).
  exact (@postgres_binds_resolved_version "docs" input w Hs Hb).
Defined.

(** Services that never reject are the [World] of [run]. *)
Lemma attempt_resolving {R} (w : World) (p : io R) :
  attempt (resolving w) p = run w p.
Proof.
  induction p as [r|e|value k IH|schema sql params k IH]; cbn [attempt run];
    try reflexivity.
  - cbn [embed_service resolving]. now rewrite IH.
  - cbn [query_service resolving]. now rewrite IH.
Qed.

(** A semantic search of a query that is not blank first embeds the query as
    it was passed, untrimmed.  When the embedding call rejects, that is the
    only call: the run ends with its error and the database is not queried.
    When it resolves, the run makes one more call, a query of the table of the
    source that binds that embedding as [$1], and ends with the rows of that
    query, or with its error. *)
Theorem semantic_search_embeds_then_queries (schema : string) (input : Input)
    (sv : Services) :
  search_type input = semantic -> blank (query input) = false ->
  match embed_service sv (query input) with
  | Throw err =>
      attempt sv (fn schema input) = ([CallEmbed (query input)], Throw err)
  | Normal e =>
      exists rest,
        let sql := statement_for semantic (source input) in
        fst (attempt sv (fn schema input))
        = [CallEmbed (query input); CallQuery schema sql (PJson e :: rest)]
        /\ snd (attempt sv (fn schema input))
           = match query_service sv schema sql (PJson e :: rest) with
             | Normal rows => Normal {| results := rows |}
             | Throw err => Throw err
             end
  end.
Proof.
  destruct input as [s t q ver l]. simpl. intros -> Hb.
  unfold fn. simpl. rewrite falsy_trim, Hb. cbn [attempt].
  destruct (embed_service sv q) as [e|err]; [|reflexivity].
  destruct s; cbn [attempt statement_for];
    match goal with
    | |- context [query_service sv ?b ?c (PJson e :: ?r)] =>
        exists r; cbv zeta;
        destruct (query_service sv b c (PJson e :: r)); split; reflexivity
    end.
Qed.

Lemma semantic_search_embeds_then_queries_witness :
  let input := {| source := tiger; search_type := semantic;
                  query := of_ascii " continuous aggregates "; version := latest;
                  limit := 5 |} in
  let up := {| embed_service := fun _ => Normal [0.25%float];
               query_service := fun _ _ _ => Normal [] |} in
  let down := {| embed_service := fun _ => Throw (Error "embedding failed");
                 query_service := fun _ _ _ => Normal [] |} in
  search_type input = semantic /\ blank (query input) = false
  /\ (exists rest,
        fst (attempt up (fn "docs" input))
        = [CallEmbed (of_ascii " continuous aggregates ");
           CallQuery "docs" semantic_timescale_chunks (PJson [0.25%float] :: rest)]
        /\ snd (attempt up (fn "docs" input)) = Normal {| results := [] |})
  /\ attempt down (fn "docs" input)
     = ([CallEmbed (of_ascii " continuous aggregates ")],
        Throw (Error "embedding failed")).
Proof.
  intros input up down.
  assert (Ht : search_type input = semantic) by reflexivity.
  assert (Hb : blank (query input) = false) by reflexivity.
  repeat (split; [assumption|]).
  split.
  - exact (@semantic_search_embeds_then_queries "docs" input up Ht Hb).
  - exact (@semantic_search_embeds_then_queries "docs" input down Ht Hb).
Defined.

(** A keyword search of a query that is not blank makes one call, to the
    database, and none to the embedding model; the text it binds as [$1] is
    the query as it was passed, untrimmed. *)
Theorem keyword_search_queries_only (schema : string) (input : Input) (w : World) :
  search_type input = keyword -> blank (query input) = false ->
  exists rest,
    fst (run w (fn schema input))
    = [CallQuery schema (statement_for keyword (source input))
         (PText (query input) :: rest)].
Proof.
  destruct input as [s t q ver l]. simpl. intros -> Hb.
  unfold fn. simpl. rewrite falsy_trim, Hb.
  destruct s; simpl; eexists; reflexivity.
Qed.

Lemma keyword_search_queries_only_witness :
  let input := {| source := tiger; search_type := keyword;
                  query := of_ascii " hypertable "; version := latest; limit := 5 |} in
  let w := {| embed := fun _ => []; pgPool_query := fun _ _ _ => [] |} in
  search_type input = keyword /\ blank (query input) = false
  /\ exists rest,
       fst (run w (fn "docs" input))
       = [CallQuery "docs" keyword_timescale_chunks
            (PText (of_ascii " hypertable ") :: rest)].
Proof.
  intros input w.
  assert (Ht : search_type input = keyword) by reflexivity.
  assert (Hb : blank (query input) = false) by reflexivity.
  repeat (split; [assumption|]).
  exact (@keyword_search_queries_only "docs" input w Ht Hb).
Defined.

(** Whatever the input, the row cap of a database call is at least 1: the
    database is never asked for [LIMIT 0] or a negative limit. *)
Theorem row_cap_is_positive (schema : string) (input : Input) (w : World)
    (c : call) (n : Z) :
  In c (fst (run w (fn schema input))) -> row_cap c = Some n -> (1 <= n)%Z.
Proof.
  destruct input as [s t q ver l]. unfold fn. simpl.
  assert (Hpos : (1 <= (if (l >? 0)%Z then l else 10))%Z)
    by (destruct (l >? 0)%Z eqn:E; lia).
  destruct (falsy (trim q)); simpl; [tauto|].
  destruct t, s; simpl; intros Hin Hc;
    repeat (destruct Hin as [<-|Hin]; [simpl in Hc; try discriminate;
                                       injection Hc as <-; exact Hpos|]);
    destruct Hin.
Qed.

Lemma row_cap_is_positive_witness :
  let input := {| source := tiger; search_type := keyword;
                  query := of_ascii "hypertable"; version := latest; limit := -4 |} in
  let w := {| embed := fun _ => []; pgPool_query := fun _ _ _ => [] |} in
  let c := CallQuery "docs" keyword_timescale_chunks
             [PText (of_ascii "hypertable"); PLimit 10] in
  In c (fst (run w (fn "docs" input))) /\ row_cap c = Some 10%Z /\ (1 <= 10)%Z.
Proof.
  intros input w c.
  assert (Hin : In c (fst (run w (fn "docs" input)))) by (left; reflexivity).
  assert (Hc : row_cap c = Some 10%Z) by reflexivity.
  repeat (split; [assumption|]).
  exact (@row_cap_is_positive "docs" input w c 10 Hin Hc).
Defined.

(** Whatever the input and whatever the services answer, resolving or
    rejecting, a run makes at most one database call and at most one embedding
    call.  A blank query makes none.  A keyword search makes one database call
    and no embedding call.  A semantic search makes one embedding call, and
    one database call after it exactly when the embedding call resolves. *)
Theorem search_docs_call_budget (schema : string) (input : Input) (sv : Services) :
  List.length (filter is_query (fst (attempt sv (fn schema input))))
  = (if blank (query input) then 0
     else match search_type input with
          | keyword => 1
          | semantic =>
              match embed_service sv (query input) with
              | Normal _ => 1
              | Throw _ => 0
              end
          end)%nat
  /\ List.length (filter is_embed (fst (attempt sv (fn schema input))))
     = (if blank (query input) then 0
        else match search_type input with semantic => 1 | keyword => 0 end)%nat.
Proof.
  destruct input as [s t q ver l]. unfold fn. simpl. rewrite falsy_trim.
  destruct (blank q); [split; reflexivity|].
  destruct t; cbn [attempt].
  - destruct (embed_service sv q) as [e|err]; [|split; reflexivity].
    destruct s; cbn [attempt];
      match goal with
      | |- context [query_service ?a ?b ?c ?d] =>
          destruct (query_service a b c d); split; reflexivity
      end.
  - destruct s; cbn [attempt];
      match goal with
      | |- context [query_service ?a ?b ?c ?d] =>
          destruct (query_service a b c d); split; reflexivity
      end.
Qed.

(** * Properties of the reranking callers *)

Lemma zero_divisor_from_nonneg (k : Q) (start n : nat) :
  0 <= k -> (0 < start)%nat -> zero_divisor_from k start n = false.
Proof.
  intros Hk. unfold zero_divisor_from. revert start.
  induction n as [|n IH]; intros start Hs; [reflexivity|].
  cbn [seq existsb]. rewrite IH by lia. rewrite orb_false_r.
  cbn [is_zero add ofIndex Q_number]. apply not_true_iff_false.
  rewrite Qeq_bool_iff. intros E.
  assert (0 < inject_Z (Z.of_nat start)).
  { change 0 with (inject_Z 0). rewrite <- Zlt_Qlt. lia. }
  lra.
Qed.

Lemma rrf_fusion_default_k (kw sem : list Row) (limit : Z) :
  rrf_fusion kw sem (ofIndex 60 : Q) limit = Normal (rrfFusion kw sem 60%Q limit).
Proof.
  change (ofIndex 60 : Q) with 60%Q. unfold rrf_fusion.
  rewrite py_for_forEach, zero_divisor_from_nonneg by (try discriminate; lia).
  rewrite py_for_forEach, zero_divisor_from_nonneg by (try discriminate; lia).
  f_equal.
  apply (py_return_is_ranked_results
           (forEach_from (accumulate one 60) sem 0
              (forEach_from (accumulate one 60) kw 0 empty_maps)) limit).
  apply (fused_scores_NoDup kw sem 60 one one).
Qed.

Lemma relative_index_nonneg (len i : Z) :
  (0 <= i)%Z -> relative_index len i = Z.min i len.
Proof. intros Hi. unfold relative_index. destruct (i <? 0)%Z eqn:E; lia. Qed.

Lemma fused_length_index {num} `{Number num} kw sem (k wk ws : num) limit :
  List.length (rrfFusionWeighted kw sem k wk ws limit)
  = Z.to_nat (relative_index (Z.of_nat (distinct_ids kw sem)) limit).
Proof.
  unfold rrfFusionWeighted, ranked_results.
  rewrite length_map, slice_0_length.
  rewrite (Permutation_length (sort_perm by_score_desc _)).
  unfold entries. now rewrite fused_scores_length.
Qed.

(** The Python reranking never fails in the fusion (its [k] is 60) and
    returns at most 10 pairs; every pair holds a fused candidate, and so a
    row of one of the two lists, next to the score the reranker gave it; and
    when the reranker returns one score per pair it was given, the number of
    pairs is the smallest of 10, 100 and the number of distinct ids. *)
Theorem py_rerank_returns_candidates
    (predict : list (string * string) -> list Q) (query_text : string)
    (kw sem : list Row) :
  let candidates := rrfFusion kw sem 60%Q 100 in
  let pairs := map (fun doc : Result Q => (query_text, content doc)) candidates in
  exists reranked,
    py_rerank predict query_text kw sem = Normal reranked
    /\ (List.length reranked <= 10)%nat
    /\ (forall doc s, In (doc, s) reranked ->
          In doc candidates /\ In (row_of doc) (kw ++ sem))
    /\ (List.length (predict pairs) = List.length pairs ->
          List.length reranked
          = Nat.min 10 (Nat.min 100 (distinct_ids kw sem))).
Proof.
  intros candidates pairs. unfold py_rerank. rewrite rrf_fusion_default_k.
  fold candidates. fold pairs. eexists. split; [reflexivity|].
  split; [|split].
  - rewrite slice_0_length, relative_index_nonneg by lia. lia.
  - intros doc s Hin. apply In_slice_0 in Hin.
    apply (Permutation_in _ (sort_perm _ _)) in Hin.
    apply in_combine_l in Hin. split; [exact Hin|].
    unfold candidates in Hin. rewrite rrfFusion_weighted_one in Hin.
    now apply fused_result_row in Hin.
  - intros Hlen. rewrite slice_0_length.
    rewrite (Permutation_length (sort_perm _ _)), length_combine, Hlen.
    unfold pairs. rewrite length_map, Nat.min_id.
    unfold candidates. rewrite rrfFusion_weighted_one, fused_length_index.
    rewrite !relative_index_nonneg by lia. lia.
Qed.

(** Descending order of the second component, on pairs. *)
Lemma sort_insert_by_snd_descending {A} (x : A * Q) (l : list (A * Q)) :
  StronglySorted (fun a b => snd b <= snd a) l ->
  StronglySorted (fun a b => snd b <= snd a)
    (sort_insert (fun a b : A * Q => sub (snd b) (snd a)) x l).
Proof.
  induction l as [|y l IH]; intros Hs; cbn [sort_insert].
  - repeat constructor.
  - inversion Hs as [|? ? Hl Hy]; subst.
    destruct (positive (sub (snd y) (snd x))) eqn:E.
    + apply positive_Q in E. cbn [sub Q_number] in E.
      constructor; auto.
      apply (Permutation_Forall (Permutation_sym (sort_insert_perm _ x l))).
      constructor; auto. lra.
    + apply positive_Q_false in E. cbn [sub Q_number] in E.
      constructor; auto. constructor; [lra|].
      eapply Forall_impl; [|exact Hy]. intros z Hz. simpl in Hz. lra.
Qed.

Lemma sort_by_snd_descending {A} (l : list (A * Q)) :
  StronglySorted (fun a b => snd b <= snd a)
    (sort (fun a b : A * Q => sub (snd b) (snd a)) l).
Proof.
  induction l as [|x l IH]; simpl; [constructor|].
  now apply sort_insert_by_snd_descending.
Qed.

(** The reranked pairs come in descending order of the reranker's score,
    and pairs with equal scores keep the order the fusion gave their
    candidates. *)
Theorem py_rerank_order
    (predict : list (string * string) -> list Q) (query_text : string)
    (kw sem : list Row) (reranked : list (Result Q * Q)) :
  py_rerank predict query_text kw sem = Normal reranked ->
  StronglySorted (fun a b => snd b <= snd a) reranked
  /\ (forall a b, Before reranked a b -> snd a == snd b ->
        Before (combine (rrfFusion kw sem 60%Q 100)
                  (predict (map (fun doc : Result Q => (query_text, content doc))
                                (rrfFusion kw sem 60%Q 100))))
               a b).
Proof.
  unfold py_rerank. rewrite rrf_fusion_default_k. intros [= <-]. split.
  - rewrite slice_0. apply StronglySorted_firstn, sort_by_snd_descending.
  - intros a b Hb Heq. apply Before_slice_0, sort_stable in Hb.
    destruct Hb as [Hb|Hp]; [exact Hb|].
    apply positive_Q in Hp. cbn [sub Q_number] in Hp. lra.
Qed.

Lemma py_rerank_order_witness :
  let kw := [row 1 "a"; row 2 "b"] in
  let sem := [row 2 "b"; row 3 "c"] in
  let predict := fun pairs : list (string * string) =>
                   firstn (List.length pairs) [1%Q; 3%Q; 3%Q] in
  let c2 : Result Q := {| row_of := row 2 "b"; score := 0 + 1 / (60 + 1 + 1) + 1 / (60 + 0 + 1) |} in
  let c1 : Result Q := {| row_of := row 1 "a"; score := 0 + 1 / (60 + 0 + 1) |} in
  let c3 : Result Q := {| row_of := row 3 "c"; score := 0 + 1 / (60 + 1 + 1) |} in
  let reranked := [(c1, 3%Q); (c3, 3%Q); (c2, 1%Q)] in
  py_rerank predict "q" kw sem = Normal reranked
  /\ Before reranked (c1, 3%Q) (c3, 3%Q)
  /\ (3%Q == 3%Q)
  /\ StronglySorted (fun a b : Result Q * Q => snd b <= snd a) reranked
  /\ Before (combine (rrfFusion kw sem 60%Q 100)
               (predict (map (fun doc : Result Q => ("q"%string, content doc))
                             (rrfFusion kw sem 60%Q 100))))
            (c1, 3%Q) (c3, 3%Q).
Proof.
  intros kw sem predict c2 c1 c3 reranked.
  assert (Hr : py_rerank predict "q" kw sem = Normal reranked)
    by (vm_compute; reflexivity).
  assert (Hb : Before reranked (c1, 3%Q) (c3, 3%Q))
    by (exists [], [], [(c2, 1%Q)]; reflexivity).
  assert (He : 3%Q == 3%Q) by reflexivity.
  repeat (split; [assumption|]).
  split.
  - exact (proj1 (@py_rerank_order predict "q" kw sem reranked Hr)).
  - exact (proj2 (@py_rerank_order predict "q" kw sem reranked Hr)
             (c1, 3%Q) (c3, 3%Q) Hb He).
Defined.

Lemma Array_get_In {A} (l : list A) (i : Z) (x : A) :
  Array_get l i = Some x -> In x l.
Proof.
  unfold Array_get. destruct (i <? 0)%Z; [discriminate|]. apply nth_error_In.
Qed.

(** The TypeScript reranking returns one entry per hit of the reranker, in
    the reranker's order.  Every entry that is defined is a fused candidate,
    and so a row of one of the two lists; an entry is [undefined] exactly
    when the hit's index is outside [0 .. candidates.length - 1], which is
    at most 100 and the number of distinct ids. *)
Theorem ts_rerank_maps_back_to_candidates {num} `{Number num}
    (cohere_rerank : string -> list string -> Z -> list (RerankHit num))
    (queryText : string) (kw sem : list Row) :
  let candidates := rrfFusion kw sem (ofIndex 60) 100 in
  let hits := cohere_rerank queryText (map (fun c : Result num => content c) candidates) 10%Z in
  let results := ts_rerank cohere_rerank queryText kw sem in
  List.length results = List.length hits
  /\ List.length candidates = Nat.min 100 (distinct_ids kw sem)
  /\ (forall r, In (Some r) results -> In r candidates /\ In (row_of r) (kw ++ sem))
  /\ (forall j hit, nth_error hits j = Some hit ->
        exists res, nth_error results j = Some res
          /\ (res = None <->
              (index hit < 0 \/ Z.of_nat (List.length candidates) <= index hit)%Z)).
Proof.
  intros candidates hits results. unfold results, ts_rerank.
  fold candidates. fold hits. split; [apply length_map|]. split; [|split].
  - unfold candidates. rewrite rrfFusion_weighted_one, fused_length_index.
    rewrite relative_index_nonneg by lia. lia.
  - intros r Hin. apply in_map_iff in Hin. destruct Hin as (hit & Hg & _).
    apply Array_get_In in Hg. split; [exact Hg|].
    unfold candidates in Hg. rewrite rrfFusion_weighted_one in Hg.
    now apply fused_result_row in Hg.
  - intros j hit Hj. exists (Array_get candidates (index hit)). split.
    + now rewrite nth_error_map, Hj.
    + unfold Array_get. destruct (index hit <? 0)%Z eqn:E.
      * split; [intros _; left; lia | reflexivity].
      * rewrite nth_error_None. split; intros Hx; [right|destruct Hx]; lia.
Qed.

(** * Properties of the migration *)

Lemma await_all_prefix (fails : Failures) (calls : list client_call) :
  exists rest, calls = fst (await_all fails calls) ++ rest.
Proof.
  induction calls as [|c calls IH]; simpl.
  - now exists [].
  - destruct (fails c).
    + now exists calls.
    + destruct IH as (rest & E). destruct (await_all fails calls) as [made thrown].
      simpl in *. exists rest. now rewrite <- E.
Qed.

Lemma await_all_no_failure (fails : Failures) (calls : list client_call) :
  snd (await_all fails calls) = None
  <-> forall c, In c calls -> fails c = None.
Proof.
  induction calls as [|c calls IH]; simpl.
  - split; [intros _ c [] | reflexivity].
  - destruct (fails c) eqn:E.
    + split; [discriminate|]. intros Hall. rewrite (Hall c) in E by now left.
      discriminate.
    + destruct (await_all fails calls) as [made thrown]. simpl in *.
      rewrite IH. split.
      * intros Hall c' [<-|Hc]; auto.
      * intros Hall c' Hc. apply Hall. now right.
Qed.

Lemma await_all_complete (fails : Failures) (calls : list client_call) :
  snd (await_all fails calls) = None -> fst (await_all fails calls) = calls.
Proof.
  induction calls as [|c calls IH]; simpl; auto.
  destruct (fails c); [discriminate|].
  destruct (await_all fails calls) as [made thrown]. simpl in *.
  intros Ht. now rewrite IH.
Qed.

Lemma await_all_first_failure (fails : Failures) pre c post e :
  (forall c', In c' pre -> fails c' = None) -> fails c = Some e ->
  await_all fails (pre ++ c :: post) = (pre ++ [c], Some e).
Proof.
  intros Hpre Hc. induction pre as [|p pre IH]; simpl.
  - now rewrite Hc.
  - rewrite (Hpre p) by now left.
    rewrite IH by (intros c' Hc'; apply Hpre; now right). reflexivity.
Qed.

(** Whatever rejects, [up] and [down] await [client.end()] exactly once, as
    their last call: the calls before it are [client.connect()] followed by
    statements of the migration in their order, with no [client.end()] among
    them. *)
Theorem migration_always_ends_client (schema : string) (fails : Failures) :
  (exists made rest,
     fst (up schema fails) = client_connect :: made ++ [client_end]
     /\ up_body schema = client_connect :: made ++ rest
     /\ ~ In client_end made)
  /\ (exists made rest,
        fst (down schema fails) = client_connect :: made ++ [client_end]
        /\ down_body schema = client_connect :: made ++ rest
        /\ ~ In client_end made).
Proof.
  assert (Hgen : forall body,
            ~ In client_end body ->
            exists made rest,
              fst (try_finally fails (client_connect :: body) client_end)
              = client_connect :: made ++ [client_end]
              /\ client_connect :: body = client_connect :: made ++ rest
              /\ ~ In client_end made).
  { intros body Hbody. unfold try_finally.
    destruct (await_all_prefix fails (client_connect :: body)) as (rest & E).
    destruct (await_all fails (client_connect :: body)) as [made thrown] eqn:Ea.
    simpl fst in *. simpl in Ea. destruct (fails client_connect).
    - injection Ea as <- _. exists [], body. repeat split; auto.
    - destruct (await_all fails body) as [made' thrown'].
      injection Ea as <- _. exists made', rest. simpl in E. repeat split; auto.
      intros Hin. apply Hbody. injection E as ->. apply in_or_app. now left. }
  split; apply Hgen; simpl; intuition discriminate.
Qed.

(** [up] and [down] stop at the first call that rejects: the calls after it
    are not made, [client.end()] still is, and the error thrown is that of
    [client.end()] if it rejects too, and the first call's otherwise.  A
    failed connection, in particular, leaves the database untouched. *)
Theorem migration_stops_at_first_failure (schema : string) (fails : Failures) :
  (forall pre c post e,
     up_body schema = pre ++ c :: post ->
     (forall c', In c' pre -> fails c' = None) -> fails c = Some e ->
     up schema fails
     = (pre ++ [c; client_end],
        Throw (match fails client_end with Some e' => e' | None => e end)))
  /\ (forall pre c post e,
        down_body schema = pre ++ c :: post ->
        (forall c', In c' pre -> fails c' = None) -> fails c = Some e ->
        down schema fails
        = (pre ++ [c; client_end],
           Throw (match fails client_end with Some e' => e' | None => e end))).
Proof.
  assert (Hgen : forall body pre c post e,
            body = pre ++ c :: post ->
            (forall c', In c' pre -> fails c' = None) -> fails c = Some e ->
            try_finally fails body client_end
            = (pre ++ [c; client_end],
               Throw (match fails client_end with Some e' => e' | None => e end))).
  { intros body pre c post e -> Hpre Hc. unfold try_finally.
    rewrite (@await_all_first_failure fails pre c post e Hpre Hc).
    rewrite <- app_assoc. simpl. destruct (fails client_end); reflexivity. }
  split; intros pre c post e; apply Hgen.
Qed.

Lemma migration_stops_at_first_failure_witness :
  let refused := Error "connection refused" in
  let fails : Failures :=
    fun c => match c with client_connect => Some refused | _ => None end in
  up_body "docs" = [] ++ client_connect :: tl (up_body "docs")
  /\ fails client_connect = Some refused
  /\ up "docs" fails = ([client_connect; client_end], Throw refused).
Proof.
  intros refused fails.
  assert (Hb : up_body "docs" = [] ++ client_connect :: tl (up_body "docs"))
    by reflexivity.
  assert (Hc : fails client_connect = Some refused) by reflexivity.
  repeat (split; [assumption|]).
  exact (proj1 (@migration_stops_at_first_failure "docs" fails)
           [] client_connect (tl (up_body "docs")) refused Hb
           (fun c' (H : In c' []) => match H with end) Hc).
Defined.

(** [up] and [down] resolve exactly when none of their calls rejects, and
    they have then made all of them, in order: the connection, the
    statements, and [client.end()]. *)
Theorem migration_resolves_iff_no_failure (schema : string) (fails : Failures) :
  (snd (up schema fails) = Normal tt
   <-> forall c, In c (up_body schema ++ [client_end]) -> fails c = None)
  /\ (snd (up schema fails) = Normal tt ->
      fst (up schema fails) = up_body schema ++ [client_end])
  /\ (snd (down schema fails) = Normal tt
      <-> forall c, In c (down_body schema ++ [client_end]) -> fails c = None)
  /\ (snd (down schema fails) = Normal tt ->
      fst (down schema fails) = down_body schema ++ [client_end]).
Proof.
  assert (Hgen : forall body,
            (snd (try_finally fails body client_end) = Normal tt
             <-> forall c, In c (body ++ [client_end]) -> fails c = None)
            /\ (snd (try_finally fails body client_end) = Normal tt ->
                fst (try_finally fails body client_end) = body ++ [client_end])).
  { intros body. unfold try_finally.
    pose proof (await_all_no_failure fails body) as Hn.
    pose proof (await_all_complete fails body) as Hc.
    destruct (await_all fails body) as [made thrown]. simpl in *.
    split.
    - split.
      + intros Hr c Hin. apply in_app_or in Hin.
        destruct (fails client_end) eqn:Ee; [discriminate|].
        destruct thrown; [discriminate|].
        destruct Hin as [Hin|[<-|[]]]; auto. now apply Hn.
      + intros Hall. rewrite (Hall client_end) by (apply in_or_app; right; now left).
        assert (Ht : thrown = None).
        { apply Hn. intros c Hc'. apply Hall, in_or_app. now left. }
        now rewrite Ht.
    - intros Hr. destruct (fails client_end); [discriminate|].
      destruct thrown; [discriminate|]. now rewrite Hc. }
  destruct (Hgen (up_body schema)) as [Hu1 Hu2].
  destruct (Hgen (down_body schema)) as [Hd1 Hd2].
  repeat split; try apply Hu1; try apply Hd1; auto.
Qed.

(** The migration and the tool agree on the indexes.  For every schema,
    [down] drops exactly the indexes [up] creates, in the same order; and
    the index a keyword statement of [search_docs] names is one [up] creates,
    on the table that statement reads. *)
Theorem migration_indexes_match (schema : string) :
  filter_map dropped_index (down_body schema)
  = filter_map created_index (up_body schema)
  /\ (forall s, exists table idx,
        bm25_index_of (statement_for keyword s) = Some (table, idx)
        /\ In (client_query (create_bm25_index idx schema table)) (up_body schema)
        /\ In (client_query (drop_index schema idx)) (down_body schema))
  /\ (forall s, bm25_index_of (statement_for semantic s) = None).
Proof.
  split; [reflexivity|]. split.
  - intros [|]; simpl; do 2 eexists; (split; [reflexivity|]); split; simpl; auto 6.
  - intros [|]; reflexivity.
Qed.

(** * Order and contents of the fused output *)




(** The non-null assertion of [contentMap.get(id)!] holds: every entry of
    [scores] has an entry in [contentMap], so the content of a result is
    always the value that lookup finds, never [undefined]. *)
Theorem content_lookup_is_defined {num} `{Number num}
    (kw sem : list Row) (k wk ws : num) (limit : Z) (r : Result num) :
  In r (rrfFusionWeighted kw sem k wk ws limit) ->
  map_get (contentMap (fused_maps kw sem k wk ws)) (id r) = Some (content r).
Proof.
  intros Hin. apply In_ranked_results in Hin. destruct Hin as [Hin Hc].
  assert (Hk : In (id r) (keys (scores (fused_maps kw sem k wk ws)))).
  { change (id r) with (fst (id r, score r)). now apply in_map. }
  rewrite fused_scores_keys, <- (fused_contentMap_keys kw sem k wk ws) in Hk.
  destruct (map_get (contentMap (fused_maps kw sem k wk ws)) (id r)) as [c|] eqn:E.
  - simpl in Hc. now rewrite Hc.
  - apply map_get_None in E. contradiction.
Qed.

Lemma content_lookup_is_defined_witness :
  let r : Result Q := {| row_of := row 1 "a"; score := 0 + 1 / (60 + 0 + 1) |} in
  In r (rrfFusionWeighted [row 1 "a"] [row 2 "b"] 60%Q 1%Q 1%Q 10)
  /\ map_get (contentMap (fused_maps [row 1 "a"] [row 2 "b"] 60%Q 1%Q 1%Q)) (id r)
     = Some (content r).
Proof.
  intros r.
  assert (Hin : In r (rrfFusionWeighted [row 1 "a"] [row 2 "b"] 60%Q 1%Q 1%Q 10))
    by (vm_compute; left; reflexivity).
  split; [exact Hin|].
  exact (@content_lookup_is_defined Q _ _ _ _ _ _ _ r Hin).
Defined.

(** * Fusing a ranking with itself *)

Lemma map_get_app_fresh {V} (m m' : Map V) key :
  ~ In key (keys m) -> map_get (m ++ m') key = map_get m' key.
Proof.
  induction m as [|[k' v'] m IH]; simpl; auto.
  intros Hn. destruct (Z.eqb k' key) eqn:E.
  - apply Z.eqb_eq in E. tauto.
  - apply IH. tauto.
Qed.

Lemma map_set_app_fresh {V} (m m' : Map V) key (v : V) :
  ~ In key (keys m) -> map_set (m ++ m') key v = m ++ map_set m' key v.
Proof.
  induction m as [|[k' v'] m IH]; simpl; auto.
  intros Hn. destruct (Z.eqb k' key) eqn:E.
  - apply Z.eqb_eq in E. tauto.
  - rewrite IH; tauto.
Qed.

Lemma forEach_second_pass {num} `{Number num} (wk ws k : num) rows i done cm :
  NoDup (keys done ++ ids rows) ->
  scores (forEach_from (accumulate ws k) rows i
            {| scores := done ++ score_entries wk k rows i; contentMap := cm |})
  = done ++ both_entries wk ws k rows i.
Proof.
  revert i done cm. induction rows as [|r rows IH]; intros i done cm Hnd.
  - reflexivity.
  - cbn [forEach_from score_entries both_entries].
    assert (Hfresh : ~ In (id r) (keys done)).
    { intros Hin. simpl in Hnd. apply NoDup_remove_2 in Hnd.
      apply Hnd, in_or_app. now left. }
    unfold accumulate at 2. cbn [scores contentMap].
    rewrite map_get_app_fresh, map_set_app_fresh by assumption.
    cbn [map_get map_set]. rewrite Z.eqb_refl. cbn [nullish].
    replace (done ++ (id r, add (add zero (div wk (add (add k (ofIndex i)) one)))
                               (div ws (add (add k (ofIndex i)) one)))
                  :: score_entries wk k rows (S i))
      with ((done ++ [(id r, add (add zero (div wk (add (add k (ofIndex i)) one)))
                                 (div ws (add (add k (ofIndex i)) one)))])
            ++ score_entries wk k rows (S i))
      by (now rewrite <- app_assoc).
    rewrite IH.
    + now rewrite <- app_assoc.
    + unfold keys. rewrite map_app. fold (keys done). simpl.
      rewrite <- app_assoc. exact Hnd.
Qed.

Lemma sort_both_entries (wk ws k : Q) rows i :
  0 < k -> 0 <= wk -> 0 <= ws ->
  sort by_score_desc (both_entries wk ws k rows i) = both_entries wk ws k rows i.
Proof.
  intros Hk Hwk Hws. revert i. induction rows as [|r rows IH]; intros i; [reflexivity|].
  cbn [both_entries sort]. fold (both_entries wk ws k rows (S i)).
  rewrite IH. destruct rows as [|r' rows]; [reflexivity|].
  cbn [both_entries sort_insert].
  match goal with |- (if ?c then _ else _) = _ => assert (Hp : c = false) end.
  { apply positive_Q_false. unfold by_score_desc.
    cbn [snd sub add zero one div Q_number].
    rewrite ofIndex_succ.
    pose proof (ofIndex_nonneg i) as Hi.
    pose proof (@rank_term_decreasing wk (k + ofIndex i + 1) Hwk) as Hd1.
    pose proof (@rank_term_decreasing ws (k + ofIndex i + 1) Hws) as Hd2.
    assert (E : k + (ofIndex i + 1) + 1 == k + ofIndex i + 1 + 1) by ring.
    rewrite E. specialize (Hd1 ltac:(lra)). specialize (Hd2 ltac:(lra)). lra. }
  now rewrite Hp.
Qed.

Lemma to_result_both_entries {num} `{Number num} (wk ws k : num) cm rows i :
  (forall r, In r rows -> map_get cm (id r) = Some (content r)) ->
  map (fun e => row_of (to_result cm e)) (both_entries wk ws k rows i) = rows.
Proof.
  revert i. induction rows as [|r rows IH]; intros i Hcm; simpl; auto.
  rewrite IH by (intros r' Hr'; apply Hcm; now right).
  rewrite Hcm by now left. simpl. now destruct r.
Qed.

Lemma forEach_second_pass_from_first {num} `{Number num} (wk ws k : num) rows st1 :
  NoDup (ids rows) -> scores st1 = score_entries wk k rows 0 ->
  scores (forEach_from (accumulate ws k) rows 0 st1) = both_entries wk ws k rows 0.
Proof.
  intros Hnd Hs1. destruct st1 as [sc cm]. simpl in Hs1. subst sc.
  apply (forEach_second_pass wk ws k rows 0 [] cm). exact Hnd.
Qed.

Lemma fuse_with_itself (rows : list Row) (k wk ws : Q) (limit : Z) :
  0 < k -> 0 <= wk -> 0 <= ws -> (0 <= limit)%Z -> NoDup (ids rows) ->
  map (fun r : Result Q => row_of r) (rrfFusionWeighted rows rows k wk ws limit)
  = firstn (Z.to_nat limit) rows.
Proof.
  intros Hk Hwk Hws Hl Hnd.
  unfold rrfFusionWeighted, ranked_results, entries, fused_maps, forEach.
  rewrite (@forEach_second_pass_from_first Q _ wk ws k rows _ Hnd)
    by (rewrite forEach_distinct by (auto; intros x _ []); reflexivity).
  rewrite sort_both_entries, slice_0_nonneg by assumption.
  rewrite map_map, <- firstn_map. f_equal.
  apply to_result_both_entries. intros r Hr.
  rewrite contentMap_forEach. now rewrite (@last_row_distinct rows r Hnd Hr).
Qed.

(** When both methods return the same ranking, with ids pairwise distinct,
    the fusion returns that ranking, cut to the limit (for [k > 0], weights
    that are not negative and a limit that is not negative).  So fusing the
    output of a fusion with itself gives its rows back in the same order. *)
Theorem fusing_a_ranking_with_itself (k wk ws : Q) (limit : Z) :
  0 < k -> 0 <= wk -> 0 <= ws -> (0 <= limit)%Z ->
  (forall rows, NoDup (ids rows) ->
     map (fun r : Result Q => row_of r) (rrfFusionWeighted rows rows k wk ws limit)
     = firstn (Z.to_nat limit) rows)
  /\ (forall kw sem (k0 wk0 ws0 : Q) limit0,
        let rows := map (fun r : Result Q => row_of r)
                        (rrfFusionWeighted kw sem k0 wk0 ws0 limit0) in
        map (fun r : Result Q => row_of r) (rrfFusionWeighted rows rows k wk ws limit)
        = firstn (Z.to_nat limit) rows).
Proof.
  intros Hk Hwk Hws Hl. split.
  - intros rows Hnd. now apply fuse_with_itself.
  - intros kw sem k0 wk0 ws0 limit0 rows. apply fuse_with_itself; auto.
    unfold rows, ids. rewrite map_map.
    apply (@ranked_results_NoDup Q _), fused_scores_NoDup.
Qed.

Lemma fusing_a_ranking_with_itself_witness :
  0 < 60 /\ 0 <= 1 /\ (0 <= 10)%Z
  /\ NoDup (ids [row 2 "b"; row 1 "a"; row 3 "c"])
  /\ map (fun r : Result Q => row_of r)
         (rrfFusionWeighted [row 2 "b"; row 1 "a"; row 3 "c"]
            [row 2 "b"; row 1 "a"; row 3 "c"] 60%Q 1%Q 1%Q 10)
     = firstn 10 [row 2 "b"; row 1 "a"; row 3 "c"].
Proof.
  assert (Hk : 0 < 60) by reflexivity.
  assert (Hw : 0 <= 1) by discriminate.
  assert (Hl : (0 <= 10)%Z) by discriminate.
  assert (Hnd : NoDup (ids [row 2 "b"; row 1 "a"; row 3 "c"])).
  { simpl. repeat constructor; simpl; intuition discriminate. }
  repeat (split; [assumption|]).
  exact (proj1 (@fusing_a_ranking_with_itself 60 1 1 10 Hk Hw Hw Hl) _ Hnd).
Defined.
